(** * Migration scripts of the art repository: record migration and image transfer

    A shallow embedding of
    [archives/20251108-django-migration/migrate_artworks.py] and
    [archives/20251108-django-migration/migrate_images.py], and the properties
    of the specification that concern them.

    Conventions of the embedding:
    - a Python [str] is a [string]; its characters are the code points below 256;
    - a Python [dict] is an association list with unique keys kept in insertion
      order ([dict_set] overwrites in place or appends), because the order of
      the keys of the column mapping decides the order of the selected columns;
    - a function that may raise returns a [result];
    - the databases, the file system and the [curl] subprocesses are explicit
      state: see [conn] for the destination connection and [Env] for the
      operating system. *)

From Stdlib Require Import ZArith Ascii String List Bool Lia DecimalString.
From stdpp Require Import base decidable list strings.
From Equations Require Import Equations.
Import ListNotations.

Local Open Scope string_scope.
Local Open Scope list_scope.

(** ** Exceptions and results *)

(** The text of an exception, kept structured: the scripts interpolate
    numbers and strings into their messages. *)
Inductive message : Type :=
| MsgInvalidTableName (table : string)
| MsgDownloadFailed (code : Z) (fetch_url : string) (detail : string)
| MsgUploadFailed (code : Z) (basename : string) (detail : string)
| MsgUnresolvedUploadUrl
| MsgMissing (what : string)
| MsgOs (path : string)
| MsgDatabase (what : string).

Inductive exn : Type :=
| ValueError (m : message)
| RuntimeError (m : message)
| OSError (m : message)
| DatabaseError (m : message)
| AttributeError (m : message)
| SystemExit (m : message).

Inductive result (A : Type) : Type :=
| Ok (a : A)
| Raise (e : exn).
Arguments Ok {A} a.
Arguments Raise {A} e.

Definition is_raise {A} (r : result A) : bool :=
  match r with Ok _ => false | Raise _ => true end.

(** ** Python strings *)

Definition slash : ascii := "/"%char.
Definition dot : ascii := "."%char.
Definition comma : ascii := ","%char.

(** [c in chars] for a one-character test. *)
Definition is_char (c0 c : ascii) : bool := Ascii.eqb c c0.

(** [str.isspace] on one character, for code points below 256. *)
Definition isspace (c : ascii) : bool :=
  let n := nat_of_ascii c in
  (Nat.leb 9 n && Nat.leb n 13) || (Nat.leb 28 n && Nat.leb n 32)
  || Nat.eqb n 133 || Nat.eqb n 160.

(** [s.lstrip(chars)]: drop the leading characters that are in [chars]. *)
Fixpoint lstrip (chars : ascii -> bool) (s : string) : string :=
  match s with
  | EmptyString => EmptyString
  | String c r => if chars c then lstrip chars r else s
  end.

(** [s.rstrip(chars)]: drop the trailing characters that are in [chars]. *)
Fixpoint rstrip (chars : ascii -> bool) (s : string) : string :=
  match s with
  | EmptyString => EmptyString
  | String c r =>
      match rstrip chars r with
      | EmptyString => if chars c then EmptyString else String c EmptyString
      | r' => String c r'
      end
  end.

(** [s.strip()] *)
Definition strip (s : string) : string := rstrip isspace (lstrip isspace s).

(** [s.split(sep)] for a one-character separator: never the empty list. *)
Fixpoint split (sep : ascii) (s : string) : list string :=
  match s with
  | EmptyString => [EmptyString]
  | String c r =>
      if Ascii.eqb c sep then EmptyString :: split sep r
      else match split sep r with
           | h :: t => String c h :: t
           | [] => [String c EmptyString]
           end
  end.

(** [s.count(c)] for a one-character argument. *)
Fixpoint count_char (c0 : ascii) (s : string) : nat :=
  match s with
  | EmptyString => 0
  | String c r => (if Ascii.eqb c c0 then 1 else 0) + count_char c0 r
  end.

(** [n] copies of the character [c]. *)
Fixpoint replicate_char (n : nat) (c : ascii) : string :=
  match n with
  | O => EmptyString
  | S k => String c (replicate_char k c)
  end.

(** [s.startswith(p)] *)
Fixpoint startswith (p s : string) : bool :=
  match p, s with
  | EmptyString, _ => true
  | String a p', String b s' => Ascii.eqb a b && startswith p' s'
  | String _ _, EmptyString => false
  end.

(** [s.endswith(c)] for one character. *)
Fixpoint ends_with_char (c0 : ascii) (s : string) : bool :=
  match s with
  | EmptyString => false
  | String c EmptyString => Ascii.eqb c c0
  | String _ r => ends_with_char c0 r
  end.

(** [sub in s] *)
Fixpoint contains (sub s : string) : bool :=
  startswith sub s ||
  match s with
  | EmptyString => false
  | String _ r => contains sub r
  end.

(** [s.replace(old, new)] for a non-empty [old]: the occurrences are replaced
    from the left and do not overlap; [skip] counts the characters of an
    occurrence of [old] that are still to be dropped. *)
Fixpoint replace_from (old new : string) (skip : nat) (s : string) : string :=
  match s with
  | EmptyString => EmptyString
  | String c r =>
      match skip with
      | S k => replace_from old new k r
      | O =>
          if startswith old s
          then new +:+ replace_from old new (String.length old - 1) r
          else String c (replace_from old new 0 r)
      end
  end.

Definition replace (old new s : string) : string := replace_from old new 0 s.

(** [sep.join(parts)] *)
Fixpoint join (sep : string) (parts : list string) : string :=
  match parts with
  | [] => EmptyString
  | [p] => p
  | p :: rest => p +:+ sep +:+ join sep rest
  end.

(** Truthiness of an optional string: [None] and the empty string are false. *)
Definition truthy (o : option string) : bool :=
  match o with
  | None => false
  | Some s => negb (String.eqb s EmptyString)
  end.

(** The string of an option that has passed a truthiness test. *)
Definition the_str (o : option string) : string :=
  match o with
  | Some s => s
  | None => EmptyString
  end.

(** ** Python dicts *)

Definition dict (K V : Type) : Type := list (K * V).

Section Dict.
Context {K V : Type} `{EqDecision K}.

(** [d.get(k)] as an option. *)
Fixpoint dict_get (d : dict K V) (k : K) : option V :=
  match d with
  | [] => None
  | (k', v) :: rest => if decide (k' = k) then Some v else dict_get rest k
  end.

(** [k in d] *)
Definition dict_has (d : dict K V) (k : K) : bool :=
  match dict_get d k with Some _ => true | None => false end.

(** [d[k] = v]: an existing key keeps its place, a new one goes last. *)
Fixpoint dict_set (d : dict K V) (k : K) (v : V) : dict K V :=
  match d with
  | [] => [(k, v)]
  | (k', v') :: rest =>
      if decide (k' = k) then (k', v) :: rest
      else (k', v') :: dict_set rest k v
  end.

(** [list(d.keys())] *)
Definition dict_keys (d : dict K V) : list K := map fst d.

(** [list(d.values())] *)
Definition dict_values (d : dict K V) : list V := map snd d.
End Dict.

(** [x in xs] for a list or set of strings. *)
Definition mem (x : string) (xs : list string) : bool :=
  bool_decide (x ∈ xs).


(** The least number of groups of at most [n] that hold [m] things. *)
Definition ceil_div (m n : nat) : nat := (m + n - 1) / n.

(** [batches] cuts [items] into batches of [n]: as few as can be, none longer
    than [n], all but the last of length [n], in the order of [items]. *)
Definition batches_of {A : Type} (n : nat) (items : list A)
    (batches : list (list A)) : Prop :=
  length batches = ceil_div (length items) n
  ∧ Forall (fun b => length b <= n) batches
  ∧ Forall (fun b => length b = n) (removelast batches)
  ∧ concat batches = items.

(** The shape of the output of a batching loop for the batch size [n]:
    full batches, then possibly one shorter, non-empty batch. *)
Inductive well_batched {A : Type} (n : nat) : list (list A) -> Prop :=
| wb_nil : well_batched n []
| wb_last b : 0 < length b <= n -> well_batched n [b]
| wb_cons b bs : length b = n -> well_batched n bs -> well_batched n (b :: bs).

(** ** migrate_artworks.py: schema-driven record migration *)

Module MigrateArtworks.

(** The scalar of a row ([Any] in the source): what psycopg hands over for a
    column value. [VDecimal u e] stands for the [Decimal] [u * 10^e]. *)
Inductive value : Type :=
| VNone
| VBool (b : bool)
| VInt (n : Z)
| VDecimal (unscaled exponent : Z)
| VStr (s : string).

#[global] Instance value_eq_dec : EqDecision value.
Proof. solve_decision. Defined.

(** A row is a [Dict[str, Any]] from column name to scalar. *)
Definition row : Type := dict string value.

(** [normalize_table_name], lines 100-109. *)
Definition normalize_table_name (table : string)
  : result (option string * string) :=
  match split dot table with
  | [p0] => Ok (None, p0)
  | [p0; p1] => Ok (Some p0, p1)
  | _ => Raise (ValueError (MsgInvalidTableName table))
  end.

(** The catalog of a database: the ordered column names of a relation of a
    schema (the result of the query of [fetch_columns], or of the query of
    [fetch_primary_key_columns]). *)
Definition catalog : Type := string -> string -> list string.

(** [fetch_columns] and [fetch_primary_key_columns], lines 112-149: both
    normalise the table name, default the schema to [public] and return the
    first field of every row of their catalog query. *)
Definition fetch_columns (cat : catalog) (table : string)
  : result (list string) :=
  match normalize_table_name table with
  | Raise e => Raise e
  | Ok (schema, relname) =>
      let schema := match schema with None => "public" | Some s => s end in
      Ok (cat schema relname)
  end.

(** The set comprehension of line 162:
    [{c.strip() for c in excludes if c and c.strip()}]. *)
Definition make_exclude_set (excludes : list string) : list string :=
  map strip
    (List.filter
       (fun c => negb (String.eqb c EmptyString)
                 && negb (String.eqb (strip c) EmptyString))
       excludes).

(** The loop of lines 167-171 over [explicit_map.items()]. *)
Fixpoint explicit_loop (exclude_set dest_set : list string)
    (items : list (string * string)) (mapping : dict string string)
  : dict string string :=
  match items with
  | [] => mapping
  | (src, dst) :: rest =>
      if mem src exclude_set then explicit_loop exclude_set dest_set rest mapping
      else if mem dst dest_set
           then explicit_loop exclude_set dest_set rest (dict_set mapping src dst)
           else explicit_loop exclude_set dest_set rest mapping
  end.

(** The loop of lines 174-180 over [source_columns]. *)
Fixpoint same_name_loop (exclude_set dest_set : list string)
    (source_columns : list string) (mapping : dict string string)
  : dict string string :=
  match source_columns with
  | [] => mapping
  | src :: rest =>
      if dict_has mapping src
      then same_name_loop exclude_set dest_set rest mapping
      else if mem src exclude_set
           then same_name_loop exclude_set dest_set rest mapping
           else if mem src dest_set
                then same_name_loop exclude_set dest_set rest
                       (dict_set mapping src src)
                else same_name_loop exclude_set dest_set rest mapping
  end.

(** [build_mapping], lines 152-182. *)
Definition build_mapping (source_columns dest_columns : list string)
    (explicit_map : dict string string) (excludes : list string)
  : dict string string :=
  let exclude_set := make_exclude_set excludes in
  let dest_set := dest_columns in
  let mapping := explicit_loop exclude_set dest_set explicit_map [] in
  same_name_loop exclude_set dest_set source_columns mapping.

(** The identity column step of [main], lines 316-318. *)
Definition force_identity (id_column : string)
    (src_columns dst_columns : list string) (mapping : dict string string)
  : dict string string :=
  if negb (dict_has mapping id_column)
     && mem id_column src_columns && mem id_column dst_columns
  then dict_set mapping id_column id_column
  else mapping.

(** The invariant of the column mapping in the words of the specification:
    every value is a destination column, every key a source column, and no
    key is excluded. *)
Definition stated_mapping_invariant (source_columns dest_columns : list string)
    (exclude_set : list string) (mapping : dict string string) : Prop :=
  Forall
    (fun p => p.2 ∈ dest_columns ∧ p.1 ∈ source_columns ∧ p.1 ∉ exclude_set)
    mapping.

(** The body of the generator [chunked], lines 185-193: [batch] is the list
    under construction, the result is the sequence of the yielded lists. *)
Fixpoint chunked_loop {A : Type} (items : list A) (size : Z) (batch : list A)
  : list (list A) :=
  match items with
  | [] => match batch with [] => [] | _ => [batch] end
  | item :: rest =>
      let batch := batch ++ [item] in
      if (size <=? Z.of_nat (length batch))%Z
      then batch :: chunked_loop rest size []
      else chunked_loop rest size batch
  end.

Definition chunked {A : Type} (iterable : list A) (size : Z) : list (list A) :=
  chunked_loop iterable size [].

(** The server-side cursor of [select_source_rows] is the list of the rows
    of the result set not fetched yet. [fetchmany] takes the next [size] of
    them; psycopg reads a [size] of zero as the cursor's [arraysize], 1. *)
Definition arraysize : nat := 1.

Definition fetchmany (size : nat) (cur : list row) : list row * list row :=
  let n := match size with O => arraysize | _ => size end in
  (firstn n cur, skipn n cur).


Definition inspect {A : Type} (a : A) : {b : A | a = b} := exist _ a eq_refl.

(** The loop of lines 211-215: fetch, stop on an empty answer, yield. The
    result is the sequence of the yielded batches. *)
Equations? select_loop (batch_size : nat) (cur : list row) : list (list row)
  by wf (length cur) lt :=
  select_loop batch_size cur with inspect (fetchmany batch_size cur) => {
    | exist _ ([], _) _ := [];
    | exist _ (rows, cur') _ := rows :: select_loop batch_size cur' }.
Proof.
  unfold fetchmany, arraysize in *. rewrite length_drop.
  destruct cur as [|r0 cur]; [by destruct batch_size|].
  destruct batch_size; simpl; lia.
Qed.

(** The query text of lines 203-206. *)
Definition dquote : string := String (ascii_of_nat 34) EmptyString.

Definition quote_ident (c : string) : string := dquote +:+ c +:+ dquote.

Definition select_sql (table : string) (columns : list string)
    (where_ : option string) : string :=
  let col_list := join ", " (map quote_ident columns) in
  let base_sql := "select " +:+ col_list +:+ " from " +:+ table in
  match where_ with
  | Some w => if truthy where_ then base_sql +:+ " where " +:+ w else base_sql
  | None => base_sql
  end.

(** The source connection answers a query text with its result set. *)
Definition source_db : Type := string -> list row.

(** [select_source_rows], lines 196-215. *)
Definition select_source_rows (conn : source_db) (table : string)
    (columns : list string) (where_ : option string) (batch_size : nat)
  : list (list row) :=
  select_loop batch_size (conn (select_sql table columns where_)).

(** The conflict clause of the insert statement, lines 237-251. *)
Inductive conflict_clause : Type :=
| NoClause
| DoNothing (target : list string)
| DoUpdate (target : list string) (assignments : list string).

(** The statement of lines 253-258, kept structured for the row sink;
    [sql_text] is its text. *)
Record statement : Type := {
  st_table : string;
  st_columns : list string;
  st_conflict : conflict_clause
}.

Definition conflict_sql (c : conflict_clause) : string :=
  match c with
  | NoClause => EmptyString
  | DoNothing target => "on conflict (" +:+ join ", " target +:+ ") do nothing"
  | DoUpdate target assignments =>
      "on conflict (" +:+ join ", " target +:+ ") do update set "
      +:+ join ", "
            (map (fun c => quote_ident c +:+ " = EXCLUDED." +:+ quote_ident c)
                 assignments)
  end.

Definition newline : string := String (ascii_of_nat 10) EmptyString.
Definition indent8 : string := "        ".

Definition sql_text (st : statement) : string :=
  let dst_cols_sql := join ", " (map quote_ident (st_columns st)) in
  let placeholders := join ", " (map (fun _ => "%s") (st_columns st)) in
  let returning := EmptyString in
  newline +:+ indent8 +:+ "insert into " +:+ st_table st
  +:+ " (" +:+ dst_cols_sql +:+ ")"
  +:+ newline +:+ indent8 +:+ "values (" +:+ placeholders +:+ ")"
  +:+ newline +:+ indent8 +:+ conflict_sql (st_conflict st)
  +:+ newline +:+ indent8 +:+ returning
  +:+ newline +:+ "    ".

(** The destination connection. The destination table has one uniqueness
    constraint, on the columns [uniq]; [committed] holds its committed rows
    and [txn] the rows the open transaction sees. Two rows conflict when they
    agree on every column of the constraint. *)
Record conn : Type := {
  uniq : list string;
  committed : list row;
  txn : list row
}.

Definition commit (c : conn) : conn :=
  {| uniq := uniq c; committed := txn c; txn := txn c |}.

Definition rollback (c : conn) : conn :=
  {| uniq := uniq c; committed := committed c; txn := committed c |}.

Definition with_txn (c : conn) (rows : list row) : conn :=
  {| uniq := uniq c; committed := committed c; txn := rows |}.

(** [r.get(s)] of line 261: a missing key reads as [None]. *)
Definition row_get (r : row) (s : string) : value :=
  match dict_get r s with Some v => v | None => VNone end.

Definition key_of (cols : list string) (r : row) : list value :=
  map (row_get r) cols.

Definition conflicts (cols : list string) (r : row) (rows : list row) : bool :=
  existsb (fun r' => bool_decide (key_of cols r' = key_of cols r)) rows.

Definition same_columns (a b : list string) : bool :=
  forallb (fun c => mem c b) a && forallb (fun c => mem c a) b.

(** The stored row of one parameter tuple. *)
Definition stored_row (cols : list string) (tuple : list value) : row :=
  combine cols tuple.

(** [do update set c = EXCLUDED.c] on the rows that conflict with [new]. *)
Definition update_row (cols assignments : list string) (new old : row) : row :=
  if bool_decide (key_of cols old = key_of cols new)
  then fold_left (fun r c => dict_set r c (row_get new c)) assignments old
  else old.

(** The row sink on one parameter tuple: a plain insert fails on a row that
    conflicts on the table's constraint; [on conflict (target)] needs the
    constraint to be on the target columns, then skips or updates. *)
Definition execute (st : statement) (c : conn) (tuple : list value)
  : result conn :=
  let new := stored_row (st_columns st) tuple in
  match st_conflict st with
  | NoClause =>
      if conflicts (uniq c) new (txn c)
      then Raise (DatabaseError (MsgDatabase "unique_violation"))
      else Ok (with_txn c (txn c ++ [new]))
  | DoNothing target =>
      if negb (same_columns target (uniq c))
      then Raise (DatabaseError (MsgDatabase "invalid_column_reference"))
      else if conflicts target new (txn c) then Ok c
      else Ok (with_txn c (txn c ++ [new]))
  | DoUpdate target assignments =>
      if negb (same_columns target (uniq c))
      then Raise (DatabaseError (MsgDatabase "invalid_column_reference"))
      else if conflicts target new (txn c)
      then Ok (with_txn c (map (update_row target assignments new) (txn c)))
      else Ok (with_txn c (txn c ++ [new]))
  end.

(** [cur.executemany(sql, values)]: the tuples in order; the first failure
    raises and leaves the writes made so far in the open transaction. *)
Fixpoint executemany (st : statement) (c : conn) (values : list (list value))
  : conn * result unit :=
  match values with
  | [] => (c, Ok tt)
  | tuple :: rest =>
      match execute st c tuple with
      | Raise e => (c, Raise e)
      | Ok c' => executemany st c' rest
      end
  end.

(** [_adapt_value], lines 271-276. *)
Definition _adapt_value (v : value) : value :=
  match v with
  | VDecimal _ _ => v
  | _ => v
  end.

(** What [upsert_rows] leaves behind: the connection, the locals [sql] and
    [values] when the call got as far as building them, and what it returns
    or raises. *)
Record upsert_outcome : Type := {
  out_conn : conn;
  out_built : option (statement * list (list value));
  out_result : result (nat * nat)
}.

(** [upsert_rows], lines 218-268. *)
Definition upsert_rows (c : conn) (dest_table : string)
    (mapping : dict string string) (rows : list row) (on_conflict : string)
    (conflict_target : list string) (dry_run : bool) : upsert_outcome :=
  match rows with
  | [] => {| out_conn := c; out_built := None; out_result := Ok (0, 0) |}
  | _ =>
      let src_cols := dict_keys mapping in
      let dst_cols :=
        map (fun s => match dict_get mapping s with
                      | Some d => d | None => EmptyString end) src_cols in
      let clause :=
        if String.eqb on_conflict "skip" then DoNothing conflict_target
        else if String.eqb on_conflict "update"
        then DoUpdate conflict_target
               (List.filter (fun c => negb (mem c conflict_target)) dst_cols)
        else NoClause in
      let sql :=
        {| st_table := dest_table; st_columns := dst_cols;
           st_conflict := clause |} in
      let values :=
        map (fun r => map (fun s => _adapt_value (row_get r s)) src_cols) rows in
      if dry_run
      then {| out_conn := c; out_built := Some (sql, values);
              out_result := Ok (0, 0) |}
      else
        match executemany sql c values with
        | (c', Raise e) =>
            {| out_conn := c'; out_built := Some (sql, values);
               out_result := Raise e |}
        | (c', Ok _) =>
            {| out_conn := c'; out_built := Some (sql, values);
               out_result := Ok (length values, 0) |}
        end
  end.


(** The destination row that [upsert_rows] writes for the source row [r]:
    the tuple of line 261 under the destination columns of line 233. *)
Definition dest_row (mapping : dict string string) (r : row) : row :=
  let src_cols := dict_keys mapping in
  let dst_cols :=
    map (fun s => match dict_get mapping s with
                  | Some d => d | None => EmptyString end) src_cols in
  stored_row dst_cols (map (fun s => _adapt_value (row_get r s)) src_cols).

(** The command line of [migrate_artworks.py] after [parse_args]; the
    column map is taken as already loaded by [load_column_map]. *)
Record args : Type := {
  source_table : string;
  dest_table : option string;
  id_column : string;
  exclude_columns : string;
  column_map : dict string string;
  batch_size : nat;
  where_ : option string;
  on_conflict : string;
  dry_run : bool
}.

(** Line 287: [args.dest_table or args.source_table]. *)
Definition dest_table_of (a : args) : string :=
  match dest_table a with
  | Some t => if truthy (Some t) then t else source_table a
  | None => source_table a
  end.

(** Line 288. *)
Definition exclude_columns_of (a : args) : list string :=
  if truthy (Some (exclude_columns a))
  then map strip (split comma (exclude_columns a))
  else [].

(** Line 307. *)
Definition conflict_target_of (a : args) (pk_columns : list string)
  : list string :=
  if truthy (Some (id_column a)) then [id_column a]
  else match pk_columns with [] => ["id"] | _ => pk_columns end.

(** Lines 309-318: the mapping that the run uses. *)
Definition final_mapping (a : args) (src_columns dst_columns : list string)
  : dict string string :=
  force_identity (id_column a) src_columns dst_columns
    (build_mapping src_columns dst_columns (column_map a)
       (exclude_columns_of a)).

(** The state of the loop of lines 329-351. *)
Record run_state : Type := {
  dst : conn;
  migrated : nat;
  would_migrate : nat
}.

(** One iteration of the loop of lines 331-351, on a batch the source has
    yielded: the upsert, then the commit unless the run is dry. *)
Definition batch_step (a : args) (mapping : dict string string)
    (conflict_target : list string) (st : run_state) (batch : list row)
  : run_state * result unit :=
  let would := would_migrate st + length batch in
  let out := upsert_rows (dst st) (dest_table_of a) mapping batch
               (on_conflict a) conflict_target (dry_run a) in
  match out_result out with
  | Raise e =>
      ({| dst := out_conn out; migrated := migrated st;
          would_migrate := would |}, Raise e)
  | Ok (inserted, _) =>
      ({| dst := if dry_run a then out_conn out else commit (out_conn out);
          migrated := migrated st + inserted;
          would_migrate := would |}, Ok tt)
  end.

(** The loop itself: an exception leaves it at once. *)
Fixpoint batch_loop (a : args) (mapping : dict string string)
    (conflict_target : list string) (st : run_state)
    (batches : list (list row)) : run_state * result unit :=
  match batches with
  | [] => (st, Ok tt)
  | batch :: rest =>
      match batch_step a mapping conflict_target st batch with
      | (st', Raise e) => (st', Raise e)
      | (st', Ok _) => batch_loop a mapping conflict_target st' rest
      end
  end.

(** Leaving [with psycopg.connect(...) as dst_conn] (line 300): psycopg
    commits the open transaction on a normal exit and rolls it back when an
    exception leaves the block. *)
Definition exit_connection (st : run_state) (r : result unit) : run_state :=
  {| dst := match r with Ok _ => commit (dst st) | Raise _ => rollback (dst st) end;
     migrated := migrated st;
     would_migrate := would_migrate st |}.

(** [main], lines 279-357, from the opened connections on: the catalogs and
    the result sets of the source are given, [dst_conn] is the destination. *)
Definition main (a : args) (src_catalog dst_catalog dst_pk_catalog : catalog)
    (src_conn : source_db) (dst_conn : conn) : run_state * result unit :=
  let start := {| dst := dst_conn; migrated := 0; would_migrate := 0 |} in
  match fetch_columns src_catalog (source_table a) with
  | Raise e => (exit_connection start (Raise e), Raise e)
  | Ok src_columns =>
  match fetch_columns dst_catalog (dest_table_of a) with
  | Raise e => (exit_connection start (Raise e), Raise e)
  | Ok dst_columns =>
  match fetch_columns dst_pk_catalog (dest_table_of a) with
  | Raise e => (exit_connection start (Raise e), Raise e)
  | Ok pk_columns =>
      let conflict_target := conflict_target_of a pk_columns in
      let mapping := final_mapping a src_columns dst_columns in
      let batches :=
        select_source_rows src_conn (source_table a) (dict_keys mapping)
          (where_ a) (batch_size a) in
      let (st, r) := batch_loop a mapping conflict_target start batches in
      (exit_connection st r, r)
  end end end.


(** What the loop header of line 331 gets from the generator
    [select_source_rows]: the batches it yields and then, when the query or
    a fetch of the source fails, the exception it raises instead of ending. *)
Definition source_stream : Type := (list (list row) * option exn)%type.

(** The loop of lines 331-351 over such a generator: the batches in turn,
    then the exception of the source, if any, leaves the loop. *)
Definition batch_loop_over (a : args) (mapping : dict string string)
    (conflict_target : list string) (st : run_state) (stream : source_stream)
  : run_state * result unit :=
  match batch_loop a mapping conflict_target st stream.1 with
  | (st', Raise e) => (st', Raise e)
  | (st', Ok _) =>
      match stream.2 with
      | Some e => (st', Raise e)
      | None => (st', Ok tt)
      end
  end.

(** A run for the examples: the destination holds the row of identity 1,
    the first batch brings identity 2, the second identities 3 and 1. *)
Definition example_args : args :=
  {| source_table := "artwork_artwork"; dest_table := None;
     id_column := "id"; exclude_columns := "order_id"; column_map := [];
     batch_size := 2; where_ := None; on_conflict := "error";
     dry_run := false |}.

Definition example_dry_args : args :=
  {| source_table := "artwork_artwork"; dest_table := None;
     id_column := "id"; exclude_columns := "order_id"; column_map := [];
     batch_size := 2; where_ := None; on_conflict := "skip";
     dry_run := true |}.

Definition example_row (n : Z) : row := [("id", VInt n)].

Definition example_conn (rows : list row) : conn :=
  {| uniq := ["id"]; committed := rows; txn := rows |}.

Definition example_start : run_state :=
  {| dst := example_conn [example_row 1]; migrated := 0; would_migrate := 0 |}.

Definition example_after_first : run_state :=
  {| dst := example_conn [example_row 1; example_row 2]; migrated := 1;
     would_migrate := 1 |}.

End MigrateArtworks.

(** ** Paths ([os.path] on POSIX) *)

(** The part of [p] up to and including its last slash. *)
Fixpoint upto_last_slash (p : string) : string :=
  match p with
  | EmptyString => EmptyString
  | String c r =>
      if Nat.eqb (count_char slash p) 0 then EmptyString
      else String c (upto_last_slash r)
  end.

(** [os.path.dirname(p)] *)
Definition dirname (p : string) : string :=
  let head := upto_last_slash p in
  if negb (String.eqb head EmptyString)
     && negb (String.eqb (lstrip (is_char slash) head) EmptyString)
  then rstrip (is_char slash) head
  else head.

(** [os.path.basename(p)] *)
Fixpoint basename (p : string) : string :=
  match p with
  | EmptyString => EmptyString
  | String _ r => if Nat.eqb (count_char slash p) 0 then p else basename r
  end.

(** [os.path.join(a, b)] *)
Definition os_path_join (a b : string) : string :=
  if startswith "/" b then b
  else if String.eqb a EmptyString || ends_with_char slash a then a +:+ b
  else a +:+ "/" +:+ b.

(** ** migrate_images.py: asset transfer *)

Module MigrateImages.

Record ImageRow : Type := {
  id : Z;
  artwork_id : string;
  image_path : string;
  is_main_image : bool
}.

(** The command line after [parse_args]; the options whose default is read
    from the environment may be absent. *)
Record args : Type := {
  source_dsn : option string;
  source_table : string;
  where_ : option string;
  limit : Z;
  fetch_prefix : option string;
  save_dir : string;
  upload_prefix : option string;
  upload_url : option string;
  cookie : option string;
  upload_field_file : string;
  upload_field_is_main : string;
  dry_run : bool;
  skip_download : bool;
  cleanup : bool
}.

(** [sub in o] for an optional string that has passed a truthiness test. *)
Definition contains_in (sub : string) (o : option string) : bool :=
  match o with
  | None => false
  | Some s => contains sub s
  end.

Definition placeholder : string := "{artwork_id}".

(** [ensure_prereqs], lines 100-108. *)
Definition ensure_prereqs (a : args) : result unit :=
  if negb (truthy (source_dsn a))
  then Raise (SystemExit (MsgMissing "source-dsn"))
  else if negb (truthy (fetch_prefix a))
  then Raise (SystemExit (MsgMissing "fetch-prefix"))
  else if negb (truthy (upload_prefix a))
          && negb (truthy (upload_url a) && contains_in placeholder (upload_url a))
  then Raise (SystemExit (MsgMissing "upload-prefix"))
  else if negb (truthy (cookie a))
  then Raise (SystemExit (MsgMissing "cookie"))
  else Ok tt.

(** [join_url], lines 111-112. *)
Definition join_url (prefix path : string) : string :=
  rstrip (is_char slash) prefix +:+ "/" +:+ lstrip (is_char slash) path.

(** [resolve_upload_url], lines 188-196. *)
Definition resolve_upload_url (a : args) (artwork_id : string) : result string :=
  if truthy (upload_prefix a)
  then Ok (join_url (the_str (upload_prefix a))
             ("artworks/" +:+ artwork_id +:+ "/images"))
  else if truthy (upload_url a) && contains_in placeholder (upload_url a)
  then Ok (replace placeholder artwork_id (the_str (upload_url a)))
  else if truthy (upload_url a)
  then Ok (the_str (upload_url a))
  else Raise (RuntimeError MsgUnresolvedUploadUrl).

(** What the run does to the outside, in order. The printed lines are kept
    as the data they are formatted from. *)
Inductive event : Type :=
| EvMakedirs (path : string)
| EvPrintCommand (args_list : list string)
| EvSubprocess (args_list : list string)
| EvRemove (path : string)
| EvError (row_id : Z) (row_path : string) (exc : exn)
| EvProgress (total downloaded skipped uploaded : nat).

(** The operating system: the files, and what a subprocess does and answers.
    [os_makedirs] and [os_remove] answer [false] when they raise an
    [OSError]; [subprocess_run] answers [None] when the program cannot be
    started, an [OSError] too, and the exit code with the two outputs
    otherwise. *)
Record Env (W : Type) : Type := {
  path_exists : W -> string -> bool;
  os_makedirs : W -> string -> W * bool;
  subprocess_run : W -> list string -> W * option (Z * string * string);
  os_remove : W -> string -> W * bool
}.
Arguments path_exists {W} _ _ _.
Arguments os_makedirs {W} _ _ _.
Arguments subprocess_run {W} _ _ _.
Arguments os_remove {W} _ _ _.

(** The state of [main]: the outside and the counters of lines 211-214. *)
Record state (W : Type) : Type := {
  world : W;
  events : list event;
  total : nat;
  downloaded : nat;
  uploaded : nat;
  skipped_download : nat
}.
Arguments world {W} _.
Arguments events {W} _.
Arguments total {W} _.
Arguments downloaded {W} _.
Arguments uploaded {W} _.
Arguments skipped_download {W} _.

Section Effects.
Context {W : Type} (env : Env W).

(** A statement that reads and writes the state and may raise. *)
Definition M (A : Type) : Type := state W -> state W * result A.

Definition ret {A} (a : A) : M A := fun st => (st, Ok a).

Definition raise {A} (e : exn) : M A := fun st => (st, Raise e).

Definition bind {A B} (m : M A) (k : A -> M B) : M B :=
  fun st =>
    match m st with
    | (st', Ok a) => k a st'
    | (st', Raise e) => (st', Raise e)
    end.

Definition lift {A} (r : result A) : M A := fun st => (st, r).

(** [except Exception]: every exception of the model but [SystemExit]. *)
Definition is_exception (e : exn) : bool :=
  match e with
  | SystemExit _ => false
  | _ => true
  end.

(** [try: body except Exception as exc: handler(exc)] *)
Definition try_except (body : M unit) (handler : exn -> M unit) : M unit :=
  fun st =>
    match body st with
    | (st', Ok a) => (st', Ok a)
    | (st', Raise e) => if is_exception e then handler e st' else (st', Raise e)
    end.

Definition emit (ev : event) : M unit :=
  fun st =>
    ({| world := world st; events := events st ++ [ev]; total := total st;
        downloaded := downloaded st; uploaded := uploaded st;
        skipped_download := skipped_download st |}, Ok tt).

Definition set_world (w : W) (st : state W) : state W :=
  {| world := w; events := events st; total := total st;
     downloaded := downloaded st; uploaded := uploaded st;
     skipped_download := skipped_download st |}.

Definition incr_total : M unit :=
  fun st =>
    ({| world := world st; events := events st; total := total st + 1;
        downloaded := downloaded st; uploaded := uploaded st;
        skipped_download := skipped_download st |}, Ok tt).

Definition incr_downloaded : M unit :=
  fun st =>
    ({| world := world st; events := events st; total := total st;
        downloaded := downloaded st + 1; uploaded := uploaded st;
        skipped_download := skipped_download st |}, Ok tt).

Definition incr_uploaded : M unit :=
  fun st =>
    ({| world := world st; events := events st; total := total st;
        downloaded := downloaded st; uploaded := uploaded st + 1;
        skipped_download := skipped_download st |}, Ok tt).

Definition incr_skipped_download : M unit :=
  fun st =>
    ({| world := world st; events := events st; total := total st;
        downloaded := downloaded st; uploaded := uploaded st;
        skipped_download := skipped_download st + 1 |}, Ok tt).

(** [os.path.exists(path)] *)
Definition exists_ (path : string) : M bool :=
  fun st => (st, Ok (path_exists env (world st) path)).

(** [os.makedirs(path, exist_ok=True)] *)
Definition makedirs (path : string) : M unit :=
  bind (emit (EvMakedirs path)) (fun _ st =>
    let (w, ok) := os_makedirs env (world st) path in
    (set_world w st, if ok then Ok tt else Raise (OSError (MsgOs path)))).

(** [subprocess.run(args_list, capture_output=True, text=True)] *)
Definition run (args_list : list string) : M (Z * string * string) :=
  bind (emit (EvSubprocess args_list)) (fun _ st =>
    let (w, r) := subprocess_run env (world st) args_list in
    (set_world w st,
     match r with
     | Some proc => Ok proc
     | None => Raise (OSError (MsgOs "curl"))
     end)).

(** [os.remove(path)] inside [try ... except OSError: pass] *)
Definition remove_quietly (path : string) : M unit :=
  bind (emit (EvRemove path)) (fun _ st =>
    let (w, _) := os_remove env (world st) path in (set_world w st, Ok tt)).

Local Notation "x <- m ;; k" := (bind m (fun x => k))
  (at level 100, m at next level, right associativity).
Local Notation "m ;; k" := (bind m (fun _ => k))
  (at level 100, right associativity).

(** [a or b] on strings. *)
Definition or_str (a b : string) : string :=
  if String.eqb a EmptyString then b else a.

(** An optional string inside an f-string. *)
Definition format_opt (o : option string) : string :=
  match o with
  | Some s => s
  | None => "None"
  end.

(** [run_curl], lines 143-148. *)
Definition run_curl (args_list : list string) (dry_run : bool)
  : M (Z * string * string) :=
  if dry_run
  then emit (EvPrintCommand args_list) ;; ret (0%Z, EmptyString, EmptyString)
  else run args_list.

(** What a call of [run_curl] shows to the outside. *)
Definition curl_event (args_list : list string) (dry_run : bool) : event :=
  if dry_run then EvPrintCommand args_list else EvSubprocess args_list.

(** The events that are no transfer: neither a [curl] call, run or printed,
    nor the making of a download directory. *)
Definition no_transfer (ev : event) : bool :=
  match ev with
  | EvMakedirs _ | EvPrintCommand _ | EvSubprocess _ => false
  | EvRemove _ | EvError _ _ _ | EvProgress _ _ _ _ => true
  end.

Definition download_command (fetch_url dest_path : string) : list string :=
  ["curl"; "-sS"; "-fL"; fetch_url; "-o"; dest_path].

(** [download_image], lines 151-156. *)
Definition download_image (fetch_url dest_path : string) (dry_run : bool)
  : M unit :=
  makedirs (dirname dest_path) ;;
  let cmd := download_command fetch_url dest_path in
  r <- run_curl cmd dry_run ;;
  let '(code, out, err) := r in
  if negb dry_run && negb (Z.eqb code 0)
  then raise (RuntimeError
                (MsgDownloadFailed code fetch_url (or_str (strip err) (strip out))))
  else ret tt.

Definition upload_command (upload_url : string) (cookie : option string)
    (file_field file_path is_main_field : string) (is_main : bool)
  : list string :=
  let is_main_val := if is_main then "true" else "false" in
  ["curl"; "-sS"; "-fL"; "-X"; "POST"; "-H";
   "Cookie: " +:+ format_opt cookie;
   "-F"; file_field +:+ "=@" +:+ file_path;
   "-F"; is_main_field +:+ "=" +:+ is_main_val;
   upload_url].

(** [upload_image], lines 159-185. *)
Definition upload_image (upload_url : string) (cookie : option string)
    (file_field file_path is_main_field : string) (is_main dry_run : bool)
  : M unit :=
  let cmd :=
    upload_command upload_url cookie file_field file_path is_main_field is_main in
  r <- run_curl cmd dry_run ;;
  let '(code, out, err) := r in
  if negb dry_run && negb (Z.eqb code 0)
  then raise (RuntimeError
                (MsgUploadFailed code (basename file_path)
                   (or_str (strip err) (strip out))))
  else ret tt.

(** The [try] block of lines 223-246. *)
Definition transfer (a : args) (row : ImageRow) (fetch_url local_path : string)
  : M unit :=
  present <- (if skip_download a then exists_ local_path else ret false) ;;
  (if skip_download a && present
   then incr_skipped_download
   else download_image fetch_url local_path (dry_run a) ;; incr_downloaded) ;;
  dest_url <- lift (resolve_upload_url a (artwork_id row)) ;;
  upload_image dest_url (cookie a) (upload_field_file a) local_path
    (upload_field_is_main a) (is_main_image row) (dry_run a) ;;
  incr_uploaded ;;
  present <- (if cleanup a && negb (dry_run a)
              then exists_ local_path else ret false) ;;
  if cleanup a && negb (dry_run a) && present
  then remove_quietly local_path
  else ret tt.

(** The [except] clause of lines 248-249. *)
Definition report (row : ImageRow) (exc : exn) : M unit :=
  emit (EvError (id row) (image_path row) exc).

(** Lines 251-256. *)
Definition progress : M unit :=
  fun st =>
    if Nat.eqb (total st mod 10) 0
    then emit (EvProgress (total st) (downloaded st) (skipped_download st)
                 (uploaded st)) st
    else (st, Ok tt).

(** Line 219 on an option that may still be [None]. *)
Definition fetch_url_of (a : args) (row : ImageRow) : result string :=
  match fetch_prefix a with
  | Some prefix => Ok (join_url prefix (image_path row))
  | None => Raise (AttributeError (MsgMissing "rstrip"))
  end.

(** One turn of the loop of lines 217-256. *)
Definition process_row (a : args) (save_root : string) (row : ImageRow)
  : M unit :=
  incr_total ;;
  fetch_url <- lift (fetch_url_of a row) ;;
  let local_path := os_path_join save_root (image_path row) in
  try_except (transfer a row fetch_url local_path) (report row) ;;
  progress.

(** The loop of lines 217-256 over the rows that [query_images] yields. *)
Fixpoint main_loop (a : args) (save_root : string) (rows : list ImageRow)
  : M unit :=
  match rows with
  | [] => ret tt
  | row :: rest => process_row a save_root row ;; main_loop a save_root rest
  end.

End Effects.

(** The query text of [query_images], lines 123-131. *)
Definition newline : string := String (ascii_of_nat 10) EmptyString.

Definition string_of_Z (n : Z) : string := NilEmpty.string_of_int (Z.to_int n).

Definition images_sql (table : string) (where_ : option string) (limit : Z)
  : string :=
  let sql :=
    newline +:+ "        select id, artwork_id, image as image_path, is_main_image"
    +:+ newline +:+ "        from " +:+ table +:+ newline +:+ "    " in
  let sql := if truthy where_ then sql +:+ " where " +:+ the_str where_ else sql in
  let sql := sql +:+ " order by id" in
  if negb (Z.eqb limit 0) && Z.ltb 0 limit
  then sql +:+ " limit " +:+ string_of_Z limit
  else sql.

(** The source connection answers the query text with the image rows. *)
Definition images_db : Type := string -> list ImageRow.

(** [query_images], lines 120-140. *)
Definition query_images (conn : images_db) (table : string)
    (where_ : option string) (limit : Z) : list ImageRow :=
  conn (images_sql table where_ limit).

Definition initial {W : Type} (w : W) : state W :=
  {| world := w; events := []; total := 0; downloaded := 0; uploaded := 0;
     skipped_download := 0 |}.

(** [main], lines 199-256; [here] is the directory of the script, the value
    of [os.path.dirname(os.path.abspath(__file__))]. *)
Definition main {W : Type} (env : Env W) (a : args) (here : string)
    (src_conn : images_db) (w : W) : state W * result unit :=
  match ensure_prereqs a with
  | Raise e => (initial w, Raise e)
  | Ok _ =>
      let save_root := os_path_join here (save_dir a) in
      main_loop env a save_root
        (query_images src_conn (source_table a) (where_ a) (limit a))
        (initial w)
  end.

(** What line 217 gets from [psycopg.connect] and the generator
    [query_images]: the rows yielded and then, when the connection, the query
    or a fetch fails, the exception raised instead of ending; a connection
    that cannot be opened yields no row. *)
Definition images_stream : Type := (list ImageRow * option exn)%type.

(** The loop of lines 216-256 over such a generator: the exception of the
    database is raised outside the [try] block of the loop body. *)
Definition main_loop_over {W : Type} (env : Env W) (a : args)
    (save_root : string) (stream : images_stream) : M unit :=
  bind (main_loop env a save_root stream.1)
    (fun _ => match stream.2 with
              | Some e => raise e
              | None => ret tt
              end).

(** [main], lines 199-256, over a database that may fail. *)
Definition main_over {W : Type} (env : Env W) (a : args) (here : string)
    (src_conn : string -> images_stream) (w : W) : state W * result unit :=
  match ensure_prereqs a with
  | Raise e => (initial w, Raise e)
  | Ok _ =>
      let save_root := os_path_join here (save_dir a) in
      main_loop_over env a save_root
        (src_conn (images_sql (source_table a) (where_ a) (limit a)))
        (initial w)
  end.

(** The events that change something outside the process other than by
    making a directory: a subprocess that runs, a file that is removed. *)
Definition is_real_action (ev : event) : bool :=
  match ev with
  | EvSubprocess _ | EvRemove _ => true
  | EvMakedirs _ | EvPrintCommand _ | EvError _ _ _ | EvProgress _ _ _ _ => false
  end.

(** The number of the reported errors among the events. *)
Definition count_errors (evs : list event) : nat :=
  length (List.filter
            (fun ev => match ev with EvError _ _ _ => true | _ => false end) evs).

(** An operating system for the examples: the world is the list of the
    existing files; a download succeeds and creates its file, every other
    command fails with exit code 22. *)
Definition example_env : Env (list string) :=
  {| path_exists := fun w p => mem p w;
     os_makedirs := fun w _ => (w, true);
     subprocess_run := fun w args_list =>
       match args_list with
       | [_; _; _; _; o; dest_path] =>
           if String.eqb o "-o"
           then (dest_path :: w, Some (0%Z, EmptyString, EmptyString))
           else (w, Some (22%Z, EmptyString, "curl: (22) error"))
       | _ => (w, Some (22%Z, EmptyString, "curl: (22) error"))
       end;
     os_remove := fun w p => (List.filter (fun q => negb (String.eqb q p)) w, true)
  |}.

Definition example_args : args :=
  {| source_dsn := Some "dbname=old"; source_table := "artwork_image";
     where_ := None; limit := 0; fetch_prefix := Some "https://old.example.com/media/";
     save_dir := "images"; upload_prefix := Some "https://api.example.com";
     upload_url := None; cookie := Some "access_token=t";
     upload_field_file := "image"; upload_field_is_main := "is_main_image";
     dry_run := false; skip_download := true; cleanup := false |}.

(** An operating system in which every command succeeds; a download
    creates its file and a removal takes the file away. *)
Definition example_online_env : Env (list string) :=
  {| path_exists := fun w p => mem p w;
     os_makedirs := fun w _ => (w, true);
     subprocess_run := fun w args_list =>
       match args_list with
       | [_; _; _; _; o; dest_path] =>
           if String.eqb o "-o"
           then (dest_path :: w, Some (0%Z, EmptyString, EmptyString))
           else (w, Some (0%Z, EmptyString, EmptyString))
       | _ => (w, Some (0%Z, EmptyString, EmptyString))
       end;
     os_remove := fun w p => (List.filter (fun q => negb (String.eqb q p)) w, true)
  |}.

Definition example_cleanup_args : args :=
  {| source_dsn := Some "dbname=old"; source_table := "artwork_image";
     where_ := None; limit := 0; fetch_prefix := Some "https://old.example.com/media/";
     save_dir := "images"; upload_prefix := Some "https://api.example.com";
     upload_url := None; cookie := Some "access_token=t";
     upload_field_file := "image"; upload_field_is_main := "is_main_image";
     dry_run := false; skip_download := false; cleanup := true |}.

(** An operating system in which every command fails with exit code 22. *)
Definition example_offline_env : Env (list string) :=
  {| path_exists := fun w p => mem p w;
     os_makedirs := fun w _ => (w, true);
     subprocess_run := fun w _ =>
       (w, Some (22%Z, EmptyString, "curl: (22) 404 "));
     os_remove := fun w _ => (w, true) |}.

Definition example_dry_args : args :=
  {| source_dsn := Some "dbname=old"; source_table := "artwork_image";
     where_ := None; limit := 0; fetch_prefix := Some "https://old.example.com/media/";
     save_dir := "images"; upload_prefix := None;
     upload_url := Some "https://api.example.com/artworks/{artwork_id}/images";
     cookie := Some "access_token=t";
     upload_field_file := "image"; upload_field_is_main := "is_main_image";
     dry_run := true; skip_download := false; cleanup := true |}.

Definition example_image (n : Z) (path : string) : ImageRow :=
  {| id := n; artwork_id := "a1"; image_path := path; is_main_image := true |}.

End MigrateImages.

(** * Properties *)

#[local] Arguments String.append !s1 s2 : simpl nomatch.

(** ** Strings *)

Section StringFacts.

Lemma append_empty_r (s : string) : s +:+ EmptyString = s.
Proof. induction s as [|c s IH]; simpl; [done|by rewrite IH]. Qed.

Lemma append_assoc (a b c : string) : (a +:+ b) +:+ c = a +:+ (b +:+ c).
Proof. induction a as [|x a IH]; simpl; [done|by rewrite IH]. Qed.

Lemma split_not_nil (sep : ascii) (s : string) : split sep s ≠ [].
Proof.
  induction s as [|c s IH]; simpl; [done|].
  destruct (Ascii.eqb c sep); [done|].
  by destruct (split sep s).
Qed.

Lemma split_length (sep : ascii) (s : string) :
  length (split sep s) = S (count_char sep s).
Proof.
  induction s as [|c s IH]; simpl; [done|].
  destruct (Ascii.eqb c sep); simpl; [by rewrite IH|].
  destruct (split sep s) as [|h t] eqn:E; [by destruct (split_not_nil sep s)|].
  simpl in *. lia.
Qed.

Lemma join_cons (sep p : string) (parts : list string) :
  parts ≠ [] -> join sep (p :: parts) = p +:+ sep +:+ join sep parts.
Proof. by destruct parts. Qed.

Lemma split_join (sep : ascii) (s : string) :
  join (String sep EmptyString) (split sep s) = s.
Proof.
  induction s as [|c s IH]; [done|].
  pose proof (split_not_nil sep s) as Hnil.
  cbn [split]. destruct (Ascii.eqb_spec c sep) as [->|Hne].
  - rewrite join_cons by done. by rewrite IH.
  - destruct (split sep s) as [|h t] eqn:E; [done|].
    destruct t as [|h' t]; [by rewrite <- IH|].
    rewrite !join_cons in * by done. by rewrite <- IH.
Qed.

Lemma split_parts_clean (sep : ascii) (s : string) :
  Forall (fun p => count_char sep p = 0) (split sep s).
Proof.
  induction s as [|c s IH]; simpl; [by constructor|].
  destruct (Ascii.eqb c sep) eqn:Ec; [by constructor|].
  destruct (split sep s) as [|h t] eqn:E.
  - constructor; [|done]. simpl. by rewrite Ec.
  - inversion IH as [|? ? Hh Ht]; subst. constructor; [|done].
    simpl. by rewrite Ec.
Qed.

Lemma rstrip_append_char (chars : ascii -> bool) (c : ascii) (s : string) :
  chars c = true ->
  rstrip chars (s +:+ String c EmptyString) = rstrip chars s.
Proof.
  intros Hc. induction s as [|x s IH]; simpl; [by rewrite Hc|by rewrite IH].
Qed.

Lemma rstrip_decompose (c0 : ascii) (s : string) :
  ∃ k, s = rstrip (is_char c0) s +:+ replicate_char k c0.
Proof.
  induction s as [|c s [k IH]]; simpl; [by exists 0|].
  destruct (rstrip (is_char c0) s) as [|y r'] eqn:E.
  - unfold is_char at 1. destruct (Ascii.eqb_spec c c0) as [->|Hne].
    + exists (S k). simpl in *. by rewrite <- IH.
    + exists k. simpl in *. by rewrite <- IH.
  - exists k. simpl in *. by rewrite <- IH.
Qed.

Lemma rstrip_no_trailing (c0 : ascii) (s : string) :
  ends_with_char c0 (rstrip (is_char c0) s) = false.
Proof.
  induction s as [|c s IH]; simpl; [done|].
  destruct (rstrip (is_char c0) s) as [|y r'] eqn:E.
  - unfold is_char. destruct (Ascii.eqb c c0) eqn:Ec; simpl; [done|by rewrite Ec].
  - simpl in *. done.
Qed.

Lemma lstrip_decompose (c0 : ascii) (s : string) :
  ∃ k, s = replicate_char k c0 +:+ lstrip (is_char c0) s.
Proof.
  induction s as [|c s [k IH]]; simpl; [by exists 0|].
  unfold is_char at 1. destruct (Ascii.eqb_spec c c0) as [->|Hne].
  - exists (S k). simpl. by rewrite <- IH.
  - by exists 0.
Qed.

Lemma lstrip_no_leading (c0 : ascii) (s : string) :
  startswith (String c0 EmptyString) (lstrip (is_char c0) s) = false.
Proof.
  induction s as [|c s IH]; simpl; [done|].
  unfold is_char at 1. destruct (Ascii.eqb c c0) eqn:Ec; [done|].
  simpl. rewrite Ascii.eqb_sym. by rewrite Ec.
Qed.

End StringFacts.

(** ** Table identifiers *)

(** C9. [normalize_table_name] returns [(None, table)] for a table
    identifier without a dot, [(schema, name)] with [table = schema.name]
    for an identifier with exactly one dot, and raises the error for a
    malformed identifier exactly when the identifier has more than one dot. *)
Theorem normalize_table_name_by_dots (table : string) :
  match count_char dot table with
  | 0 => MigrateArtworks.normalize_table_name table = Ok (None, table)
  | 1 =>
      ∃ schema name,
        MigrateArtworks.normalize_table_name table = Ok (Some schema, name)
        ∧ table = schema +:+ "." +:+ name
        ∧ count_char dot schema = 0 ∧ count_char dot name = 0
  | _ =>
      MigrateArtworks.normalize_table_name table
      = Raise (ValueError (MsgInvalidTableName table))
  end
  ∧ (is_raise (MigrateArtworks.normalize_table_name table) = true
     ↔ 1 < count_char dot table).
Proof.
  unfold MigrateArtworks.normalize_table_name.
  pose proof (split_length dot table) as Hlen.
  pose proof (split_join dot table) as Hjoin.
  pose proof (split_parts_clean dot table) as Hclean.
  destruct (split dot table) as [|p0 [|p1 [|p2 rest]]]; simpl in Hlen.
  - lia.
  - replace (count_char dot table) with 0 by lia.
    simpl in Hjoin. subst p0. split; [done|]. simpl. split; [done|lia].
  - replace (count_char dot table) with 1 by lia.
    split; [|simpl; split; [done|lia]].
    exists p0, p1. simpl in Hjoin.
    inversion Hclean as [|? ? H0 Hrest]; subst.
    inversion Hrest as [|? ? H1 _]; subst. done.
  - destruct (count_char dot table) as [|[|n]] eqn:En; try lia.
    split; [done|]. simpl. split; [lia|done].
Qed.

(** ** URLs *)

(** C10. [join_url] returns the prefix without its trailing slashes, one
    slash, and the path without its leading slashes; so a further slash at the
    end of the prefix or at the head of the path does not change the result. *)
Theorem join_url_slash_insensitive (prefix path : string) :
  ∃ (j k : nat) (p t : string),
    prefix = p +:+ replicate_char j slash
    ∧ ends_with_char slash p = false
    ∧ path = replicate_char k slash +:+ t
    ∧ startswith "/" t = false
    ∧ MigrateImages.join_url prefix path = p +:+ "/" +:+ t
    ∧ MigrateImages.join_url (prefix +:+ "/") path
      = MigrateImages.join_url prefix path
    ∧ MigrateImages.join_url prefix ("/" +:+ path)
      = MigrateImages.join_url prefix path.
Proof.
  destruct (rstrip_decompose slash prefix) as [j Hj].
  destruct (lstrip_decompose slash path) as [k Hk].
  exists j, k, (rstrip (is_char slash) prefix), (lstrip (is_char slash) path).
  split; [done|]. split; [apply rstrip_no_trailing|].
  split; [done|]. split; [apply (lstrip_no_leading slash)|].
  split; [done|]. split.
  - unfold MigrateImages.join_url.
    by rewrite (rstrip_append_char (is_char slash) slash).
  - done.
Qed.


(** ** Batches *)

Section Batches.
Import MigrateArtworks.
Context {A : Type}.

Lemma well_batched_bound (n : nat) (bs : list (list A)) :
  well_batched n bs -> Forall (fun b => length b <= n) bs.
Proof.
  induction 1 as [|b Hb|b bs Hb _ IH]; repeat constructor; [lia|lia|done].
Qed.

Lemma well_batched_full (n : nat) (bs : list (list A)) :
  well_batched n bs -> Forall (fun b => length b = n) (removelast bs).
Proof.
  induction 1 as [|b Hb|b bs Hb _ IH]; [constructor|constructor|].
  destruct bs as [|b' bs]; [constructor|].
  change (removelast (b :: b' :: bs)) with (b :: removelast (b' :: bs)).
  by constructor.
Qed.

Lemma ceil_div_small (m n : nat) : 0 < m <= n -> ceil_div m n = 1.
Proof.
  intros H. unfold ceil_div.
  symmetry. apply Nat.div_unique with (r := m - 1); lia.
Qed.

Lemma ceil_div_add (m n : nat) : 0 < n -> ceil_div (n + m) n = S (ceil_div m n).
Proof.
  intros H. unfold ceil_div.
  replace (n + m + n - 1) with (1 * n + (m + n - 1)) by lia.
  rewrite Nat.div_add_l by lia. lia.
Qed.

Lemma ceil_div_zero (n : nat) : 0 < n -> ceil_div 0 n = 0.
Proof. intros H. unfold ceil_div. apply Nat.div_small. lia. Qed.

Lemma well_batched_count (n : nat) (bs : list (list A)) :
  0 < n -> well_batched n bs -> length bs = ceil_div (length (concat bs)) n.
Proof.
  intros Hn. induction 1 as [|b Hb|b bs Hb _ IH]; simpl.
  - by rewrite ceil_div_zero.
  - rewrite app_nil_r. by rewrite ceil_div_small.
  - rewrite length_app, Hb, ceil_div_add by done. by rewrite IH.
Qed.

Lemma chunked_loop_shape (size : Z) (items batch : list A) :
  (1 <= size)%Z -> length batch < Z.to_nat size ->
  well_batched (Z.to_nat size) (chunked_loop items size batch)
  ∧ concat (chunked_loop items size batch) = batch ++ items.
Proof.
  intros Hsize. revert batch.
  induction items as [|item rest IH]; intros batch Hlen; simpl.
  - rewrite app_nil_r. destruct batch as [|x batch]; [split; [constructor|done]|].
    split; [|by simpl; rewrite app_nil_r].
    apply wb_last. simpl in *. lia.
  - destruct (Z.leb_spec size (Z.of_nat (length (batch ++ [item])))) as [Hfull|Hroom];
      rewrite length_app in *; simpl in *.
    + destruct (IH []) as [Hwb Hcat]; [simpl; lia|].
      split; [apply wb_cons; [rewrite length_app; simpl; lia|done]|].
      simpl. rewrite Hcat. by rewrite <- app_assoc.
    + destruct (IH (batch ++ [item])) as [Hwb Hcat]; [rewrite length_app; simpl; lia|].
      split; [done|]. rewrite Hcat. by rewrite <- app_assoc.
Qed.

End Batches.

Lemma select_loop_nil (n : nat) : MigrateArtworks.select_loop n [] = [].
Proof. by destruct n. Qed.

Lemma select_loop_shape (n : nat) (cur : list MigrateArtworks.row) :
  0 < n ->
  well_batched n (MigrateArtworks.select_loop n cur)
  ∧ concat (MigrateArtworks.select_loop n cur) = cur.
Proof.
  intros Hn. funelim (MigrateArtworks.select_loop n cur);
    destruct batch_size as [|k]; try lia.
  - destruct cur; [split; [constructor|done]|done].
  - match goal with IH : _ -> well_batched _ _ ∧ _ |- _ =>
      destruct (IH Hn) as [Hwb Hcat] end.
    match goal with E : take _ _ = _ :: _ |- _ => rename E into Htake end.
    pose proof (take_drop (S k) cur) as Hsplit.
    pose proof (length_take cur (S k)) as Hlen.
    rewrite Htake in Hsplit, Hlen.
    split; [|by simpl; rewrite Hcat].
    destruct (decide (S k <= length cur)) as [Hfull|Hshort].
    + apply wb_cons; [lia|done].
    + rewrite drop_ge in * by lia.
      rewrite select_loop_nil. apply wb_last. cbn [length] in *. lia.
Qed.

Lemma well_batched_batches_of {A : Type} (n : nat) (items : list A)
    (batches : list (list A)) :
  0 < n -> well_batched n batches -> concat batches = items ->
  batches_of n items batches.
Proof.
  intros Hn Hwb Hcat. unfold batches_of. rewrite <- Hcat.
  split; [by apply well_batched_count|].
  split; [by apply well_batched_bound|].
  split; [by apply well_batched_full|done].
Qed.

(** C5. For a batch size [n >= 1], the batching loops, [chunked] on any
    finite sequence and [select_source_rows] on the result set of its query,
    yield [ceil(m/n)] batches for [m] rows, none longer than [n], all but the
    last of length [n], and the batches in order make up the input. *)
Theorem batching_exact {A : Type} (items : list A) (size : Z)
    (conn : MigrateArtworks.source_db) (table : string)
    (columns : list string) (where_ : option string) :
  (1 <= size)%Z ->
  batches_of (Z.to_nat size) items (MigrateArtworks.chunked items size)
  ∧ batches_of (Z.to_nat size)
      (conn (MigrateArtworks.select_sql table columns where_))
      (MigrateArtworks.select_source_rows conn table columns where_
         (Z.to_nat size)).
Proof.
  intros Hsize. split.
  - destruct (chunked_loop_shape size items [] Hsize) as [Hwb Hcat];
      [simpl; lia|].
    apply well_batched_batches_of; [lia|done|done].
  - unfold MigrateArtworks.select_source_rows.
    destruct (select_loop_shape (Z.to_nat size)
                (conn (MigrateArtworks.select_sql table columns where_)))
      as [Hwb Hcat]; [lia|].
    apply well_batched_batches_of; [lia|done|done].
Qed.

(** The end-to-end figure of the specification: 1200 rows in batches of 500
    are three batches of 500, 500 and 200 rows. *)
Example chunked_1200_by_500 :
  map length (MigrateArtworks.chunked (repeat tt 1200) 500%Z) = [500; 500; 200]
  ∧ map length (MigrateArtworks.select_loop 500
                  (repeat (MigrateArtworks.example_row 1) 1200))
    = [500; 500; 200].
Proof. by vm_compute. Qed.

Lemma batching_exact_witness :
  (1 <= 2)%Z
  ∧ batches_of 2 [1; 2; 3; 4; 5] (MigrateArtworks.chunked [1; 2; 3; 4; 5] 2%Z)
  ∧ batches_of 2
      [[("id", MigrateArtworks.VInt 1)]; [("id", MigrateArtworks.VInt 2)];
       [("id", MigrateArtworks.VInt 3)]]
      (MigrateArtworks.select_source_rows
         (fun _ => [[("id", MigrateArtworks.VInt 1)];
                    [("id", MigrateArtworks.VInt 2)];
                    [("id", MigrateArtworks.VInt 3)]])
         "artwork_artwork" ["id"] None 2).
Proof.
  split; [lia|].
  apply (batching_exact [1; 2; 3; 4; 5] 2%Z
           (fun _ => [[("id", MigrateArtworks.VInt 1)];
                      [("id", MigrateArtworks.VInt 2)];
                      [("id", MigrateArtworks.VInt 3)]])
           "artwork_artwork" ["id"] None).
  lia.
Defined.


(** ** The column mapping *)

Section Mapping.
Import MigrateArtworks.

Lemma mem_true (x : string) (xs : list string) : mem x xs = true <-> x ∈ xs.
Proof. unfold mem. apply bool_decide_eq_true. Qed.

Lemma mem_false (x : string) (xs : list string) : mem x xs = false <-> x ∉ xs.
Proof. unfold mem. apply bool_decide_eq_false. Qed.

Lemma dict_set_Forall {V : Type} (Q : string * V -> Prop) (d : dict string V)
    (k : string) (v : V) :
  Forall Q d -> Q (k, v) -> Forall Q (dict_set d k v).
Proof.
  intros Hd Hkv. induction Hd as [|[k' v'] d Hx Hd IH]; simpl.
  - by repeat constructor.
  - destruct (decide (k' = k)) as [->|Hne]; by constructor.
Qed.

Lemma dict_get_set {V : Type} (d : dict string V) (k k' : string) (v : V) :
  dict_get (dict_set d k v) k'
  = if decide (k = k') then Some v else dict_get d k'.
Proof.
  induction d as [|[k0 v0] d IH]; simpl.
  - by destruct (decide (k = k')).
  - destruct (decide (k0 = k)) as [->|Hne]; simpl.
    + by destruct (decide (k = k')).
    + rewrite IH. destruct (decide (k0 = k')) as [->|Hne'];
        [by destruct (decide (k = k')); [congruence|]|done].
Qed.

Lemma dict_get_elem {V : Type} (d : dict string V) (k : string) (v : V) :
  dict_get d k = Some v -> (k, v) ∈ d.
Proof.
  induction d as [|[k0 v0] d IH]; simpl; [done|].
  destruct (decide (k0 = k)) as [->|Hne].
  - intros [= ->]. by left.
  - intros H. right. by apply IH.
Qed.

Lemma dict_get_of_key {V : Type} (d : dict string V) (k : string) :
  k ∈ dict_keys d -> ∃ v, dict_get d k = Some v.
Proof.
  induction d as [|[k0 v0] d IH]; simpl; [by intros H; apply elem_of_nil in H|].
  destruct (decide (k0 = k)) as [->|Hne]; [by eexists|].
  intros H. apply elem_of_cons in H as [H|H]; [congruence|by apply IH].
Qed.

Lemma dict_has_set {V : Type} (d : dict string V) (k k' : string) (v : V) :
  dict_has d k' = true -> dict_has (dict_set d k v) k' = true.
Proof.
  unfold dict_has. rewrite dict_get_set.
  by destruct (decide (k = k')).
Qed.

Lemma explicit_loop_Forall (Q : string * string -> Prop)
    (exclude_set dest_set : list string) (items : list (string * string))
    (mapping : dict string string) :
  Forall (fun p => p.1 ∉ exclude_set -> p.2 ∈ dest_set -> Q p) items ->
  Forall Q mapping ->
  Forall Q (explicit_loop exclude_set dest_set items mapping).
Proof.
  intros Hitems. revert mapping.
  induction Hitems as [|[src dst] items Hp _ IH]; intros mapping Hm; simpl;
    [done|].
  destruct (mem src exclude_set) eqn:Ex; [by apply IH|].
  destruct (mem dst dest_set) eqn:Ed; [|by apply IH].
  apply IH, dict_set_Forall; [done|].
  apply Hp; simpl; [by apply mem_false|by apply mem_true].
Qed.

Lemma same_name_loop_Forall (Q : string * string -> Prop)
    (exclude_set dest_set source_columns : list string)
    (mapping : dict string string) :
  Forall (fun s => s ∉ exclude_set -> s ∈ dest_set -> Q (s, s)) source_columns ->
  Forall Q mapping ->
  Forall Q (same_name_loop exclude_set dest_set source_columns mapping).
Proof.
  intros Hcols. revert mapping.
  induction Hcols as [|src cols Hp _ IH]; intros mapping Hm; simpl; [done|].
  destruct (dict_has mapping src); [by apply IH|].
  destruct (mem src exclude_set) eqn:Ex; [by apply IH|].
  destruct (mem src dest_set) eqn:Ed; [|by apply IH].
  apply IH, dict_set_Forall; [done|].
  apply Hp; [by apply mem_false|by apply mem_true].
Qed.

Lemma build_mapping_Forall (Q : string * string -> Prop)
    (source_columns dest_columns : list string)
    (explicit_map : dict string string) (excludes : list string) :
  (forall src dst, (src, dst) ∈ explicit_map ->
     src ∉ make_exclude_set excludes -> dst ∈ dest_columns -> Q (src, dst)) ->
  (forall src, src ∈ source_columns ->
     src ∉ make_exclude_set excludes -> src ∈ dest_columns -> Q (src, src)) ->
  Forall Q (build_mapping source_columns dest_columns explicit_map excludes).
Proof.
  intros Hexp Hsame. unfold build_mapping.
  apply same_name_loop_Forall.
  - apply Forall_forall. intros s Hs. by apply Hsame.
  - apply explicit_loop_Forall; [|constructor].
    apply Forall_forall. intros [src dst] Hp. by apply Hexp.
Qed.

Lemma force_identity_Forall (Q : string * string -> Prop) (id_column : string)
    (src_columns dst_columns : list string) (mapping : dict string string) :
  (id_column ∈ src_columns -> id_column ∈ dst_columns ->
   Q (id_column, id_column)) ->
  Forall Q mapping ->
  Forall Q (force_identity id_column src_columns dst_columns mapping).
Proof.
  intros Hid Hm. unfold force_identity.
  destruct (dict_has mapping id_column); simpl; [done|].
  destruct (mem id_column src_columns) eqn:Es; simpl; [|done].
  destruct (mem id_column dst_columns) eqn:Ed; [|done].
  apply dict_set_Forall; [done|]. apply Hid; by apply mem_true.
Qed.

Lemma same_name_loop_has (exclude_set dest_set source_columns : list string)
    (mapping : dict string string) (k : string) :
  dict_has mapping k = true ->
  dict_has (same_name_loop exclude_set dest_set source_columns mapping) k = true.
Proof.
  revert mapping. induction source_columns as [|src cols IH];
    intros mapping Hk; simpl; [done|].
  destruct (dict_has mapping src); [by apply IH|].
  destruct (mem src exclude_set); [by apply IH|].
  destruct (mem src dest_set); [|by apply IH].
  by apply IH, dict_has_set.
Qed.

Lemma force_identity_has (id_column : string)
    (src_columns dst_columns : list string) (mapping : dict string string) :
  id_column ∈ src_columns -> id_column ∈ dst_columns ->
  dict_has (force_identity id_column src_columns dst_columns mapping) id_column
  = true.
Proof.
  intros Hs Hd. unfold force_identity.
  apply mem_true in Hs, Hd. rewrite Hs, Hd.
  destruct (dict_has mapping id_column) eqn:E; simpl; [done|].
  unfold dict_has. rewrite dict_get_set. by destruct (decide (id_column = id_column)).
Qed.

End Mapping.

(** C3, as the code has it. In the mapping that the run uses, the one of
    [build_mapping] after the identity step, every value is a destination
    column; every key is a source column or a key of the explicit map; and a
    key that is in the set of the stripped, non-empty exclusions is the
    identity column, mapped to itself and present in both column lists. *)
Theorem mapping_invariant (id_column : string)
    (source_columns dest_columns : list string)
    (explicit_map : dict string string) (excludes : list string) :
  Forall
    (fun p =>
       p.2 ∈ dest_columns
       ∧ (p.1 ∈ source_columns ∨ p.1 ∈ dict_keys explicit_map)
       ∧ (p.1 ∉ MigrateArtworks.make_exclude_set excludes
          ∨ (p = (id_column, id_column)
             ∧ id_column ∈ source_columns ∧ id_column ∈ dest_columns)))
    (MigrateArtworks.force_identity id_column source_columns dest_columns
       (MigrateArtworks.build_mapping source_columns dest_columns explicit_map
          excludes)).
Proof.
  apply force_identity_Forall.
  - intros Hs Hd. simpl. split; [done|]. split; [by left|by right].
  - apply build_mapping_Forall.
    + intros src dst Hin Hex Hd. simpl. split; [done|]. split; [|by left].
      right. unfold dict_keys. apply list_elem_of_fmap. by exists (src, dst).
    + intros src Hs Hex Hd. simpl. split; [done|]. split; by left.
Qed.

(** C3 as stated fails in three ways: a key of the explicit map need not be
    a source column; the identity step adds the identity column even when it
    is excluded; and an exclusion is compared after stripping, so a column
    whose name carries blanks is not excluded by its own name. *)
Lemma mapping_invariant_as_stated_fails :
  ¬ MigrateArtworks.stated_mapping_invariant [] ["a"]
      (MigrateArtworks.make_exclude_set [])
      (MigrateArtworks.force_identity "id" [] ["a"]
         (MigrateArtworks.build_mapping [] ["a"] [("x", "a")] []))
  ∧ ¬ MigrateArtworks.stated_mapping_invariant ["id"] ["id"]
        (MigrateArtworks.make_exclude_set ["id"])
        (MigrateArtworks.force_identity "id" ["id"] ["id"]
           (MigrateArtworks.build_mapping ["id"] ["id"] [] ["id"]))
  ∧ ¬ MigrateArtworks.stated_mapping_invariant [" a"] [" a"] [" a"]
        (MigrateArtworks.force_identity "id" [" a"] [" a"]
           (MigrateArtworks.build_mapping [" a"] [" a"] [] [" a"])).
Proof.
  unfold MigrateArtworks.stated_mapping_invariant.
  split; [|split]; intros H; vm_compute in H;
    apply Forall_cons_1 in H as [(_ & Hsrc & Hexcl) _]; simpl in *.
  - by apply not_elem_of_nil in Hsrc.
  - apply Hexcl. by left.
  - apply Hexcl. by left.
Qed.

(** C4 as stated fails when the explicit map sends the identity column to
    another destination column: the identity step then leaves the entry. *)
Lemma identity_column_remapped :
  "id" ∈ ["id"] ∧ "id" ∈ ["id"; "uuid"]
  ∧ dict_get
      (MigrateArtworks.force_identity "id" ["id"] ["id"; "uuid"]
         (MigrateArtworks.build_mapping ["id"] ["id"; "uuid"]
            [("id", "uuid")] []))
      "id" ≠ Some "id".
Proof. split; [by left|]. split; [by left|]. by vm_compute. Qed.


(** ** The upsert and the batch loop *)

Section Upsert.
Import MigrateArtworks.

Lemma execute_frame (st : statement) (c c' : conn) (tuple : list value) :
  execute st c tuple = Ok c' -> committed c' = committed c ∧ uniq c' = uniq c.
Proof.
  unfold execute. destruct (st_conflict st) as [|target|target assignments].
  - destruct (conflicts _ _ _); [done|]. by intros [= <-].
  - destruct (negb _); [done|].
    destruct (conflicts _ _ _); by intros [= <-].
  - destruct (negb _); [done|].
    destruct (conflicts _ _ _); by intros [= <-].
Qed.

Lemma executemany_frame (st : statement) (values : list (list value)) (c : conn) :
  committed (executemany st c values).1 = committed c
  ∧ uniq (executemany st c values).1 = uniq c.
Proof.
  revert c. induction values as [|tuple rest IH]; intros c; simpl; [done|].
  destruct (execute st c tuple) as [c'|e] eqn:E; [|done].
  destruct (execute_frame _ _ _ _ E) as [Hc Hu].
  destruct (IH c') as [Hc' Hu']. split; congruence.
Qed.

Lemma conflicts_app (cols : list string) (r : row) (rows more : list row) :
  conflicts cols r (rows ++ more)
  = conflicts cols r rows || conflicts cols r more.
Proof. unfold conflicts. apply existsb_app. Qed.

Lemma executemany_plain_conflict (st : statement) (values : list (list value))
    (c : conn) (tuple : list value) :
  st_conflict st = NoClause ->
  tuple ∈ values ->
  conflicts (uniq c) (stored_row (st_columns st) tuple) (txn c) = true ->
  ∃ e, (executemany st c values).2 = Raise e.
Proof.
  intros Hst. revert c.
  induction values as [|t rest IH]; intros c Hin Hconf; [by inversion Hin|].
  simpl. unfold execute at 1. rewrite Hst.
  destruct (conflicts (uniq c) (stored_row (st_columns st) t) (txn c)) eqn:Et;
    [by eexists|].
  apply elem_of_cons in Hin as [->|Hin]; [congruence|].
  apply IH; [done|]. simpl. rewrite conflicts_app, Hconf. done.
Qed.

Lemma upsert_rows_frame (c : conn) (dest_table : string)
    (mapping : dict string string) (rows : list row) (on_conflict : string)
    (conflict_target : list string) (dry_run : bool) :
  committed (out_conn (upsert_rows c dest_table mapping rows on_conflict
                         conflict_target dry_run)) = committed c
  ∧ uniq (out_conn (upsert_rows c dest_table mapping rows on_conflict
                      conflict_target dry_run)) = uniq c.
Proof.
  unfold upsert_rows. destruct rows as [|r rows]; [done|].
  destruct dry_run; [done|].
  match goal with |- context [executemany ?st c ?vs] =>
    pose proof (executemany_frame st vs c) as Hf;
    destruct (executemany st c vs) as [c' [u|e]] end; done.
Qed.

Lemma upsert_rows_error_conflict (c : conn) (dest_table : string)
    (mapping : dict string string) (rows : list row)
    (conflict_target : list string) (r : row) :
  r ∈ rows ->
  conflicts (uniq c) (dest_row mapping r) (txn c) = true ->
  ∃ e, out_result (upsert_rows c dest_table mapping rows "error"
                     conflict_target false) = Raise e.
Proof.
  intros Hin Hconf. unfold upsert_rows.
  destruct rows as [|r0 rows]; [by inversion Hin|].
  change (String.eqb "error" "skip") with false.
  change (String.eqb "error" "update") with false. cbv iota.
  match goal with |- context [executemany ?st c ?vs] =>
    destruct (executemany_plain_conflict st vs c
                (map (fun s => _adapt_value (row_get r s)) (dict_keys mapping)))
      as [e He]; [done| |done|] end.
  - apply (list_elem_of_fmap_2
             (fun r => map (fun s => _adapt_value (row_get r s))
                         (dict_keys mapping))). done.
  - match goal with |- context [executemany ?st c ?vs] =>
      destruct (executemany st c vs) as [c' [u|e']] end; simpl in *;
      [done|by eexists].
Qed.

Lemma batch_loop_app (a : args) (mapping : dict string string)
    (conflict_target : list string) (st st1 : run_state)
    (before rest : list (list row)) :
  batch_loop a mapping conflict_target st before = (st1, Ok tt) ->
  batch_loop a mapping conflict_target st (before ++ rest)
  = batch_loop a mapping conflict_target st1 rest.
Proof.
  revert st. induction before as [|b before IH]; intros st; simpl.
  - by intros [= ->].
  - destruct (batch_step a mapping conflict_target st b) as [st' [u|e]];
      [apply IH|done].
Qed.

Lemma batch_step_clean (a : args) (mapping : dict string string)
    (conflict_target : list string) (st st' : run_state) (batch : list row) :
  dry_run a = false ->
  batch_step a mapping conflict_target st batch = (st', Ok tt) ->
  txn (dst st') = committed (dst st').
Proof.
  intros Hdry. unfold batch_step. rewrite Hdry.
  destruct (out_result _) as [[inserted skipped]|e]; [|done].
  by intros [= <-].
Qed.

Lemma batch_loop_clean (a : args) (mapping : dict string string)
    (conflict_target : list string) (batches : list (list row))
    (st st' : run_state) :
  dry_run a = false ->
  txn (dst st) = committed (dst st) ->
  batch_loop a mapping conflict_target st batches = (st', Ok tt) ->
  txn (dst st') = committed (dst st').
Proof.
  intros Hdry. revert st.
  induction batches as [|b batches IH]; intros st Hclean; simpl.
  - by intros [= <-].
  - destruct (batch_step a mapping conflict_target st b) as [st1 [[]|e]] eqn:E;
      [|done].
    apply IH. by eapply batch_step_clean.
Qed.

End Upsert.

(** C6. With [dry_run] set, [upsert_rows] leaves the destination connection
    as it was and returns [(0, 0)], for every batch, mapping, policy and
    conflict target. On a non-empty batch it still builds the statement and
    projects every row: the statement is on the destination table, its
    columns are the values of the mapping in the order of its keys, its
    conflict clause is the one of the policy, and the tuple of a row holds,
    for every key of the mapping in order, the value of the row or [None];
    these are the very statement and tuples of a real run. *)
Theorem dry_run_writes_nothing (c : MigrateArtworks.conn) (dest_table : string)
    (mapping : dict string string) (rows : list MigrateArtworks.row)
    (on_conflict : string) (conflict_target : list string) :
  let out :=
    MigrateArtworks.upsert_rows c dest_table mapping rows on_conflict
      conflict_target true in
  MigrateArtworks.out_conn out = c
  ∧ MigrateArtworks.out_result out = Ok (0, 0)
  ∧ MigrateArtworks.out_built out
    = MigrateArtworks.out_built
        (MigrateArtworks.upsert_rows c dest_table mapping rows on_conflict
           conflict_target false)
  ∧ match rows with
    | [] => MigrateArtworks.out_built out = None
    | _ =>
        ∃ sql values,
          MigrateArtworks.out_built out = Some (sql, values)
          ∧ MigrateArtworks.st_table sql = dest_table
          ∧ Forall2 (fun src dst => dict_get mapping src = Some dst)
              (dict_keys mapping) (MigrateArtworks.st_columns sql)
          ∧ MigrateArtworks.st_conflict sql
            = (if String.eqb on_conflict "skip"
               then MigrateArtworks.DoNothing conflict_target
               else if String.eqb on_conflict "update"
               then MigrateArtworks.DoUpdate conflict_target
                      (List.filter (fun col => negb (mem col conflict_target))
                         (MigrateArtworks.st_columns sql))
               else MigrateArtworks.NoClause)
          ∧ values
            = map (fun r =>
                     map (fun src => match dict_get r src with
                                     | Some v => v
                                     | None => MigrateArtworks.VNone
                                     end)
                       (dict_keys mapping))
                rows
          ∧ length (MigrateArtworks.st_columns sql) = length mapping
          ∧ length values = length rows
          ∧ Forall (fun tuple => length tuple = length mapping) values
    end.
Proof.
  unfold MigrateArtworks.upsert_rows.
  destruct rows as [|r rows]; [done|]. cbv zeta.
  split; [done|]. split; [done|]. split.
  - match goal with |- context [MigrateArtworks.executemany ?st c ?vs] =>
      by destruct (MigrateArtworks.executemany st c vs) as [c' [u|e]] end.
  - eexists _, _. split; [reflexivity|]. cbn [MigrateArtworks.st_table
      MigrateArtworks.st_columns MigrateArtworks.st_conflict].
    split; [done|]. split.
    { apply Forall2_fmap_r, Forall_Forall2_diag, Forall_forall.
      intros src Hsrc. unfold compose.
      by destruct (dict_get_of_key mapping src Hsrc) as [dst ->]. }
    split; [done|]. split.
    { apply map_ext. intros r'. apply map_ext. intros src.
      unfold MigrateArtworks.row_get, MigrateArtworks._adapt_value.
      by destruct (dict_get r' src) as [[]|]. }
    unfold dict_keys.
    split; [by rewrite !length_map|]. split; [by rewrite length_map|].
    apply Forall_forall. intros tuple Hin.
    apply list_elem_of_fmap in Hin as (r' & -> & _). by rewrite !length_map.
Qed.

(** C1 fails on the code: under the skip policy the count that
    [upsert_rows] returns is the length of the batch. Here the only row of
    the batch is already in the destination; the call adds no row and
    returns an inserted count of one. *)
Lemma skip_policy_counts_whole_batch :
  let c :=
    {| MigrateArtworks.uniq := ["id"];
       MigrateArtworks.committed := [[("id", MigrateArtworks.VInt 1)]];
       MigrateArtworks.txn := [[("id", MigrateArtworks.VInt 1)]] |} in
  let out :=
    MigrateArtworks.upsert_rows c "artwork_artwork" [("id", "id")]
      [[("id", MigrateArtworks.VInt 1)]] "skip" ["id"] false in
  MigrateArtworks.out_result out = Ok (1, 0)
  ∧ MigrateArtworks.txn (MigrateArtworks.out_conn out) = MigrateArtworks.txn c.
Proof. by vm_compute. Qed.

(** Whatever the policy, a call of [upsert_rows] that writes and does not
    raise returns the length of the batch and zero. *)
Lemma upsert_rows_returns_batch_length (c : MigrateArtworks.conn)
    (dest_table : string) (mapping : dict string string)
    (rows : list MigrateArtworks.row) (on_conflict : string)
    (conflict_target : list string) (counts : nat * nat) :
  MigrateArtworks.out_result
    (MigrateArtworks.upsert_rows c dest_table mapping rows on_conflict
       conflict_target false) = Ok counts ->
  counts = (length rows, 0).
Proof.
  unfold MigrateArtworks.upsert_rows. destruct rows as [|r rows];
    [by intros [= <-]|]. cbv zeta.
  match goal with |- context [MigrateArtworks.executemany ?st c ?vs] =>
    destruct (MigrateArtworks.executemany st c vs) as [c' [u|e]] end;
    [|done].
  cbn [MigrateArtworks.out_result]. intros [= <-]. by rewrite length_map.
Qed.

(** C2. Under the error policy, in a run that writes, a batch with a row
    that conflicts with a row of the destination raises out of the loop;
    nothing of that batch is committed, the connection rolls the open
    transaction back on the way out, and the destination holds what the
    batches before it had committed. *)
Theorem error_policy_batch_atomic (a : MigrateArtworks.args)
    (mapping : dict string string) (conflict_target : list string)
    (st st1 : MigrateArtworks.run_state)
    (before after : list (list MigrateArtworks.row))
    (batch : list MigrateArtworks.row) (r : MigrateArtworks.row) :
  MigrateArtworks.on_conflict a = "error" ->
  MigrateArtworks.dry_run a = false ->
  MigrateArtworks.txn (MigrateArtworks.dst st)
  = MigrateArtworks.committed (MigrateArtworks.dst st) ->
  MigrateArtworks.batch_loop a mapping conflict_target st before = (st1, Ok tt) ->
  r ∈ batch ->
  MigrateArtworks.conflicts (MigrateArtworks.uniq (MigrateArtworks.dst st1))
    (MigrateArtworks.dest_row mapping r)
    (MigrateArtworks.committed (MigrateArtworks.dst st1)) = true ->
  ∃ st2 e,
    MigrateArtworks.batch_loop a mapping conflict_target st
      (before ++ batch :: after) = (st2, Raise e)
    ∧ MigrateArtworks.committed (MigrateArtworks.dst st2)
      = MigrateArtworks.committed (MigrateArtworks.dst st1)
    ∧ MigrateArtworks.migrated st2 = MigrateArtworks.migrated st1
    ∧ MigrateArtworks.committed
        (MigrateArtworks.dst (MigrateArtworks.exit_connection st2 (Raise e)))
      = MigrateArtworks.committed (MigrateArtworks.dst st1)
    ∧ MigrateArtworks.txn
        (MigrateArtworks.dst (MigrateArtworks.exit_connection st2 (Raise e)))
      = MigrateArtworks.committed (MigrateArtworks.dst st1).
Proof.
  intros Hpolicy Hdry Hclean Hbefore Hin Hconf.
  pose proof (batch_loop_clean _ _ _ _ _ _ Hdry Hclean Hbefore) as Hclean1.
  rewrite (batch_loop_app _ _ _ _ _ _ _ Hbefore).
  cbn [MigrateArtworks.batch_loop]. unfold MigrateArtworks.batch_step.
  rewrite Hpolicy, Hdry. rewrite <- Hclean1 in Hconf.
  destruct (upsert_rows_error_conflict (MigrateArtworks.dst st1)
              (MigrateArtworks.dest_table_of a) mapping batch conflict_target
              r Hin Hconf) as [e He].
  destruct (upsert_rows_frame (MigrateArtworks.dst st1)
              (MigrateArtworks.dest_table_of a) mapping batch "error"
              conflict_target false) as [Hcommitted _].
  rewrite He. eexists _, e. split; [reflexivity|]. simpl. done.
Qed.


(** ** The transfer of the images *)

Section Transfer.
Import MigrateImages.
Context {W : Type} (env : Env W).

Lemma prereqs_fetch_prefix (a : args) :
  ensure_prereqs a = Ok tt -> ∃ prefix, fetch_prefix a = Some prefix.
Proof.
  unfold ensure_prereqs. destruct (truthy (source_dsn a)); [|done]. simpl.
  destruct (fetch_prefix a) as [prefix|]; [by eexists|done].
Qed.

Lemma prereqs_upload_url (a : args) (artwork_id : string) :
  ensure_prereqs a = Ok tt -> ∃ url, resolve_upload_url a artwork_id = Ok url.
Proof.
  unfold ensure_prereqs, resolve_upload_url.
  destruct (truthy (source_dsn a)); [|done]. simpl.
  destruct (truthy (fetch_prefix a)); [|done]. simpl.
  destruct (truthy (upload_prefix a)); [by eexists|]. simpl.
  destruct (truthy (upload_url a) && contains_in placeholder (upload_url a));
    [by eexists|done].
Qed.

Ltac unfold_m :=
  unfold process_row, transfer, report, progress, download_image, upload_image,
    run_curl, makedirs, run, remove_quietly, exists_, try_except, lift,
    incr_total, incr_downloaded, incr_uploaded, incr_skipped_download, emit,
    bind, ret, raise, set_world, curl_event in *.

Ltac step_m :=
  repeat (simpl in *;
          match goal with
          | |- context [subprocess_run env ?w ?c] =>
              let code := fresh "code" in
              let out := fresh "out" in
              let err := fresh "err" in
              let w' := fresh "w" in
              destruct (subprocess_run env w c) as [w' [[[code out] err]|]]
          | |- context [os_makedirs env ?w ?p] =>
              let w' := fresh "w" in
              destruct (os_makedirs env w p) as [w' []]
          | |- context [os_remove env ?w ?p] =>
              let w' := fresh "w" in
              destruct (os_remove env w p) as [w' []]
          | |- context [Z.eqb ?c 0] => destruct (Z.eqb c 0)
          | |- context [Nat.eqb ?c 0] => destruct (Nat.eqb c 0)
          | |- context [path_exists env ?w ?p] =>
              destruct (path_exists env w p)
          end).

(** C7. For an asset processed with skip-download set whose local file
    exists, the turn of the loop counts a skipped download and no download,
    and the first thing it does to the outside is the upload call, run or,
    in a dry run, printed; nothing else it does is a [curl] call or the making
    of a directory, so no fetch is issued. *)
Theorem skip_download_no_fetch (a : args) (save_root : string) (row : ImageRow)
    (st : state W) :
  ensure_prereqs a = Ok tt ->
  skip_download a = true ->
  path_exists env (world st) (os_path_join save_root (image_path row)) = true ->
  ∃ st' dest_url tail,
    process_row env a save_root row st = (st', Ok tt)
    ∧ resolve_upload_url a (artwork_id row) = Ok dest_url
    ∧ events st'
      = events st
        ++ curl_event
             (upload_command dest_url (cookie a) (upload_field_file a)
                (os_path_join save_root (image_path row))
                (upload_field_is_main a) (is_main_image row))
             (dry_run a)
           :: tail
    ∧ forallb no_transfer tail = true
    ∧ skipped_download st' = skipped_download st + 1
    ∧ downloaded st' = downloaded st.
Proof.
  intros Hpre Hskip Hexists.
  destruct (prereqs_fetch_prefix a Hpre) as [prefix Hprefix].
  destruct (prereqs_upload_url a (artwork_id row) Hpre) as [url Hurl].
  unfold_m. unfold fetch_url_of. rewrite Hprefix, Hskip, Hurl. simpl.
  rewrite Hexists. simpl.
  destruct (dry_run a), (cleanup a); step_m;
    eexists _, url, _; (split; [reflexivity|]); (split; [reflexivity|]);
    rewrite <- ?app_assoc; simpl; (split; [reflexivity|]); done.
Qed.

(** X21. In a run that writes, once the directory is made, a [curl] that
    exits with a code other than zero makes [download_image] raise, with the
    code, the address and the stripped error output; one directory was made
    and one command run. *)
Lemma download_failure_raises (fetch_url dest_path : string) (st : state W)
    (w1 w2 : W) (code : Z) (out err : string) :
  os_makedirs env (world st) (dirname dest_path) = (w1, true) ->
  subprocess_run env w1 (download_command fetch_url dest_path)
  = (w2, Some (code, out, err)) ->
  code ≠ 0%Z ->
  ∃ st',
    download_image env fetch_url dest_path false st
    = (st', Raise (RuntimeError
                     (MsgDownloadFailed code fetch_url
                        (or_str (strip err) (strip out)))))
    ∧ events st'
      = events st ++ [EvMakedirs (dirname dest_path);
                      EvSubprocess (download_command fetch_url dest_path)].
Proof.
  intros Hmk Hrun Hcode. unfold_m. simpl. rewrite Hmk. simpl. rewrite Hrun.
  simpl. destruct (Z.eqb_spec code 0) as [->|_]; [done|]. simpl.
  eexists. split; [reflexivity|]. simpl. by rewrite <- app_assoc.
Qed.

(** X22. In a run that writes, a [curl] that exits with a code other than
    zero makes [upload_image] raise, with the code, the base name of the file
    and the stripped error output; the uploaded count stays. *)
Lemma upload_failure_raises (upload_url : string) (cookie : option string)
    (file_field file_path is_main_field : string) (is_main : bool)
    (st : state W) (w' : W) (code : Z) (out err : string) :
  subprocess_run env (world st)
    (upload_command upload_url cookie file_field file_path is_main_field is_main)
  = (w', Some (code, out, err)) ->
  code ≠ 0%Z ->
  ∃ st',
    upload_image env upload_url cookie file_field file_path is_main_field
      is_main false st
    = (st', Raise (RuntimeError
                     (MsgUploadFailed code (basename file_path)
                        (or_str (strip err) (strip out)))))
    ∧ uploaded st' = uploaded st.
Proof.
  intros Hrun Hcode. unfold_m. simpl. rewrite Hrun. simpl.
  destruct (Z.eqb_spec code 0) as [->|_]; [done|]. simpl.
  eexists. split; [reflexivity|]. done.
Qed.

Lemma process_row_isolated (a : args) (save_root : string) (row : ImageRow)
    (st : state W) :
  ensure_prereqs a = Ok tt ->
  ∃ st',
    process_row env a save_root row st = (st', Ok tt)
    ∧ total st' = total st + 1
    ∧ match
        transfer env a row
          (join_url (the_str (fetch_prefix a)) (image_path row))
          (os_path_join save_root (image_path row)) (incr_total st).1
      with
      | (s, Raise e) =>
          ∃ tail,
            events st' = events s ++ EvError (id row) (image_path row) e :: tail
            ∧ forallb no_transfer tail = true
            ∧ world st' = world s
            ∧ uploaded st' = uploaded st
      | (s, Ok _) => uploaded st' = uploaded st + 1
      end.
Proof.
  intros Hpre.
  destruct (prereqs_fetch_prefix a Hpre) as [prefix Hprefix].
  destruct (prereqs_upload_url a (artwork_id row) Hpre) as [url Hurl].
  unfold_m. unfold fetch_url_of. rewrite Hprefix, Hurl. simpl.
  destruct (skip_download a), (dry_run a), (cleanup a); step_m;
    eexists; (split; [reflexivity|]); (split; [reflexivity|]); simpl;
    try done;
    eexists; rewrite <- ?app_assoc; simpl; (split; [reflexivity|]); done.
Qed.

Lemma main_loop_total (a : args) (save_root : string) (rows : list ImageRow)
    (st : state W) :
  ensure_prereqs a = Ok tt ->
  ∃ st',
    main_loop env a save_root rows st = (st', Ok tt)
    ∧ total st' = total st + length rows.
Proof.
  intros Hpre. revert st. induction rows as [|row rows IH]; intros st.
  - exists st. split; [done|]. simpl. lia.
  - destruct (process_row_isolated a save_root row st Hpre)
      as (st1 & Hstep & Htotal & _).
    destruct (IH st1) as (st' & Hloop & Htotal').
    exists st'. cbn [main_loop]. unfold bind at 1. rewrite Hstep.
    split; [done|]. simpl. lia.
Qed.

Lemma main_loop_app (a : args) (save_root : string)
    (before rest : list ImageRow) (st st1 : state W) :
  main_loop env a save_root before st = (st1, Ok tt) ->
  main_loop env a save_root (before ++ rest) st
  = main_loop env a save_root rest st1.
Proof.
  revert st. induction before as [|row before IH]; intros st; simpl.
  - by intros [= ->].
  - unfold bind at 1 2.
    destruct (process_row env a save_root row st) as [st' [[]|e]];
      [apply IH|done].
Qed.

(** C8. For every sequence of assets and every asset in it, the loop runs
    to its end without raising and counts every asset. When the download or
    the upload of the asset raises, nothing more is done for it: the error is
    reported with the identity and the path of the asset, the asset is not
    counted as uploaded, and the loop goes on with the assets after it. *)
Theorem transfer_failures_isolated (a : args) (save_root : string)
    (before after : list ImageRow) (row : ImageRow) (st : state W) :
  ensure_prereqs a = Ok tt ->
  ∃ st1 st2 st3,
    main_loop env a save_root before st = (st1, Ok tt)
    ∧ process_row env a save_root row st1 = (st2, Ok tt)
    ∧ main_loop env a save_root after st2 = (st3, Ok tt)
    ∧ main_loop env a save_root (before ++ row :: after) st = (st3, Ok tt)
    ∧ total st3 = total st + length (before ++ row :: after)
    ∧ match
        transfer env a row
          (join_url (the_str (fetch_prefix a)) (image_path row))
          (os_path_join save_root (image_path row)) (incr_total st1).1
      with
      | (s, Raise e) =>
          ∃ tail,
            events st2 = events s ++ EvError (id row) (image_path row) e :: tail
            ∧ forallb no_transfer tail = true
            ∧ world st2 = world s
            ∧ uploaded st2 = uploaded st1
      | (s, Ok _) => uploaded st2 = uploaded st1 + 1
      end.
Proof.
  intros Hpre.
  destruct (main_loop_total a save_root before st Hpre) as (st1 & H1 & T1).
  destruct (process_row_isolated a save_root row st1 Hpre)
    as (st2 & H2 & T2 & Hfail).
  destruct (main_loop_total a save_root after st2 Hpre) as (st3 & H3 & T3).
  exists st1, st2, st3. split; [done|]. split; [done|]. split; [done|].
  split; [|split; [|done]].
  - rewrite (main_loop_app _ _ _ _ _ _ H1). cbn [main_loop].
    unfold bind at 1. by rewrite H2.
  - rewrite length_app. simpl. lia.
Qed.

End Transfer.

Lemma skip_download_no_fetch_witness :
  let a := MigrateImages.example_args in
  let row := MigrateImages.example_image 7 "a/b.png" in
  let st := MigrateImages.initial ["/srv/scripts/images/a/b.png"] in
  MigrateImages.ensure_prereqs a = Ok tt
  ∧ MigrateImages.skip_download a = true
  ∧ MigrateImages.path_exists MigrateImages.example_env
      (MigrateImages.world st)
      (os_path_join "/srv/scripts/images" (MigrateImages.image_path row)) = true
  ∧ ∃ st' dest_url tail,
      MigrateImages.process_row MigrateImages.example_env a
        "/srv/scripts/images" row st = (st', Ok tt)
      ∧ MigrateImages.resolve_upload_url a (MigrateImages.artwork_id row)
        = Ok dest_url
      ∧ MigrateImages.events st'
        = MigrateImages.events st
          ++ MigrateImages.curl_event
               (MigrateImages.upload_command dest_url (MigrateImages.cookie a)
                  (MigrateImages.upload_field_file a)
                  (os_path_join "/srv/scripts/images"
                     (MigrateImages.image_path row))
                  (MigrateImages.upload_field_is_main a)
                  (MigrateImages.is_main_image row))
               (MigrateImages.dry_run a)
             :: tail
      ∧ forallb MigrateImages.no_transfer tail = true
      ∧ MigrateImages.skipped_download st'
        = MigrateImages.skipped_download st + 1
      ∧ MigrateImages.downloaded st' = MigrateImages.downloaded st.
Proof.
  cbv zeta. split; [reflexivity|]. split; [reflexivity|].
  split; [reflexivity|].
  apply (skip_download_no_fetch MigrateImages.example_env
           MigrateImages.example_args "/srv/scripts/images"
           (MigrateImages.example_image 7 "a/b.png")
           (MigrateImages.initial ["/srv/scripts/images/a/b.png"]));
    reflexivity.
Defined.

Lemma transfer_failures_isolated_witness :
  let a := MigrateImages.example_args in
  let before := [MigrateImages.example_image 1 "x.png"] in
  let row := MigrateImages.example_image 2 "y.png" in
  let after := [MigrateImages.example_image 3 "z.png"] in
  let st := MigrateImages.initial ([] : list string) in
  MigrateImages.ensure_prereqs a = Ok tt
  ∧ ∃ st1 st2 st3,
      MigrateImages.main_loop MigrateImages.example_env a "/srv/scripts/images"
        before st = (st1, Ok tt)
      ∧ MigrateImages.process_row MigrateImages.example_env a
          "/srv/scripts/images" row st1 = (st2, Ok tt)
      ∧ MigrateImages.main_loop MigrateImages.example_env a
          "/srv/scripts/images" after st2 = (st3, Ok tt)
      ∧ MigrateImages.main_loop MigrateImages.example_env a
          "/srv/scripts/images" (before ++ row :: after) st = (st3, Ok tt)
      ∧ MigrateImages.total st3
        = MigrateImages.total st + length (before ++ row :: after)
      ∧ match
          MigrateImages.transfer MigrateImages.example_env a row
            (MigrateImages.join_url (the_str (MigrateImages.fetch_prefix a))
               (MigrateImages.image_path row))
            (os_path_join "/srv/scripts/images" (MigrateImages.image_path row))
            (MigrateImages.incr_total st1).1
        with
        | (s, Raise e) =>
            ∃ tail,
              MigrateImages.events st2
              = MigrateImages.events s
                ++ MigrateImages.EvError (MigrateImages.id row)
                     (MigrateImages.image_path row) e :: tail
              ∧ forallb MigrateImages.no_transfer tail = true
              ∧ MigrateImages.world st2 = MigrateImages.world s
              ∧ MigrateImages.uploaded st2 = MigrateImages.uploaded st1
        | (s, Ok _) =>
            MigrateImages.uploaded st2 = MigrateImages.uploaded st1 + 1
        end.
Proof.
  cbv zeta. split; [reflexivity|].
  apply (transfer_failures_isolated MigrateImages.example_env
           MigrateImages.example_args "/srv/scripts/images"
           [MigrateImages.example_image 1 "x.png"]
           [MigrateImages.example_image 3 "z.png"]
           (MigrateImages.example_image 2 "y.png")
           (MigrateImages.initial ([] : list string))).
  reflexivity.
Defined.

(** The run of the example: three assets, every download succeeds, every
    upload fails; each failure is reported and the next asset is fetched. *)
Example failing_uploads_run :
  let out :=
    MigrateImages.main MigrateImages.example_env MigrateImages.example_args
      "/srv/scripts"
      (fun _ => [MigrateImages.example_image 1 "x.png";
                 MigrateImages.example_image 2 "y.png"])
      [] in
  out.2 = Ok tt
  ∧ MigrateImages.total out.1 = 2
  ∧ MigrateImages.downloaded out.1 = 2
  ∧ MigrateImages.uploaded out.1 = 0
  ∧ MigrateImages.world out.1
    = ["/srv/scripts/images/y.png"; "/srv/scripts/images/x.png"]
  ∧ length (MigrateImages.events out.1) = 8.
Proof. by vm_compute. Qed.

Lemma error_policy_batch_atomic_witness :
  let a := MigrateArtworks.example_args in
  let mapping := [("id", "id")] in
  let st := MigrateArtworks.example_start in
  let st1 := MigrateArtworks.example_after_first in
  let before := [[MigrateArtworks.example_row 2]] in
  let batch := [MigrateArtworks.example_row 3; MigrateArtworks.example_row 1] in
  let r := MigrateArtworks.example_row 1 in
  MigrateArtworks.on_conflict a = "error"
  ∧ MigrateArtworks.dry_run a = false
  ∧ MigrateArtworks.txn (MigrateArtworks.dst st)
    = MigrateArtworks.committed (MigrateArtworks.dst st)
  ∧ MigrateArtworks.batch_loop a mapping ["id"] st before = (st1, Ok tt)
  ∧ r ∈ batch
  ∧ MigrateArtworks.conflicts (MigrateArtworks.uniq (MigrateArtworks.dst st1))
      (MigrateArtworks.dest_row mapping r)
      (MigrateArtworks.committed (MigrateArtworks.dst st1)) = true
  ∧ ∃ st2 e,
      MigrateArtworks.batch_loop a mapping ["id"] st (before ++ batch :: [])
      = (st2, Raise e)
      ∧ MigrateArtworks.committed (MigrateArtworks.dst st2)
        = MigrateArtworks.committed (MigrateArtworks.dst st1)
      ∧ MigrateArtworks.migrated st2 = MigrateArtworks.migrated st1
      ∧ MigrateArtworks.committed
          (MigrateArtworks.dst (MigrateArtworks.exit_connection st2 (Raise e)))
        = MigrateArtworks.committed (MigrateArtworks.dst st1)
      ∧ MigrateArtworks.txn
          (MigrateArtworks.dst (MigrateArtworks.exit_connection st2 (Raise e)))
        = MigrateArtworks.committed (MigrateArtworks.dst st1).
Proof.
  cbv zeta.
  assert (MigrateArtworks.example_row 1
          ∈ [MigrateArtworks.example_row 3; MigrateArtworks.example_row 1])
    as Hin by (right; left).
  split; [reflexivity|]. split; [reflexivity|]. split; [reflexivity|].
  split; [reflexivity|]. split; [exact Hin|]. split; [reflexivity|].
  exact (error_policy_batch_atomic MigrateArtworks.example_args [("id", "id")]
           ["id"] MigrateArtworks.example_start
           MigrateArtworks.example_after_first
           [[MigrateArtworks.example_row 2]] []
           [MigrateArtworks.example_row 3; MigrateArtworks.example_row 1]
           (MigrateArtworks.example_row 1)
           eq_refl eq_refl eq_refl eq_refl Hin eq_refl).
Defined.


(** * Further properties of the code *)

(** ** The lookups of the column mapping *)

Section MappingLookup.
Import MigrateArtworks.

Lemma mem_cons (k x : string) (xs : list string) :
  mem k (x :: xs) = bool_decide (k = x) || mem k xs.
Proof.
  unfold mem. destruct (decide (k = x)) as [->|Hne].
  - rewrite (bool_decide_eq_true_2 (x = x)) by done.
    apply bool_decide_eq_true. by left.
  - rewrite (bool_decide_eq_false_2 (k = x)) by done. simpl.
    apply bool_decide_ext. rewrite elem_of_cons.
    split; [by intros [?|?]|by right].
Qed.

Lemma dict_get_not_key {V : Type} (d : dict string V) (k : string) :
  k ∉ dict_keys d -> dict_get d k = None.
Proof.
  induction d as [|[k0 v0] d IH]; simpl; [done|].
  intros Hk. apply not_elem_of_cons in Hk as [Hne Hk].
  destruct (decide (k0 = k)); [congruence|by apply IH].
Qed.

Lemma dict_get_key {V : Type} (d : dict string V) (k : string) :
  dict_get d k = None -> k ∉ dict_keys d.
Proof.
  induction d as [|[k0 v0] d IH]; simpl; [intros _; apply not_elem_of_nil|].
  destruct (decide (k0 = k)) as [->|Hne]; [done|].
  intros H. apply not_elem_of_cons. split; [congruence|by apply IH].
Qed.

Lemma explicit_loop_get (exclude_set dest_set : list string)
    (items : dict string string) (mapping : dict string string) (k : string) :
  NoDup (dict_keys items) ->
  dict_get (explicit_loop exclude_set dest_set items mapping) k
  = match dict_get items k with
    | Some dst =>
        if mem k exclude_set then dict_get mapping k
        else if mem dst dest_set then Some dst else dict_get mapping k
    | None => dict_get mapping k
    end.
Proof.
  intros Hnd. revert mapping.
  induction items as [|[src dst] items IH]; intros mapping; [done|].
  unfold dict_keys in Hnd. cbn [map fst] in Hnd.
  apply NoDup_cons in Hnd as [Hfresh Hnd]. specialize (IH Hnd).
  cbn [explicit_loop dict_get].
  destruct (decide (src = k)) as [->|Hne].
  - pose proof (dict_get_not_key items k Hfresh) as Hnone.
    destruct (mem k exclude_set); [by rewrite IH, Hnone|].
    destruct (mem dst dest_set); rewrite IH, Hnone; [|done].
    rewrite dict_get_set. by destruct (decide (k = k)).
  - destruct (mem src exclude_set); [by rewrite IH|].
    destruct (mem dst dest_set); rewrite IH; [|done].
    rewrite dict_get_set. by destruct (decide (src = k)).
Qed.

Lemma same_name_loop_get (exclude_set dest_set source_columns : list string)
    (mapping : dict string string) (k : string) :
  dict_get (same_name_loop exclude_set dest_set source_columns mapping) k
  = match dict_get mapping k with
    | Some v => Some v
    | None =>
        if mem k source_columns && negb (mem k exclude_set) && mem k dest_set
        then Some k else None
    end.
Proof.
  revert mapping. induction source_columns as [|src cols IH]; intros mapping.
  - simpl. by destruct (dict_get mapping k).
  - cbn [same_name_loop]. rewrite mem_cons. unfold dict_has.
    destruct (decide (k = src)) as [->|Hne].
    + rewrite (bool_decide_eq_true_2 (src = src)) by done. simpl.
      destruct (dict_get mapping src) as [v|] eqn:Hget.
      { rewrite IH, Hget. done. }
      destruct (mem src exclude_set) eqn:Ex; simpl.
      { rewrite IH, Hget. by destruct (mem src cols). }
      destruct (mem src dest_set) eqn:Ed.
      { rewrite IH, dict_get_set. by destruct (decide (src = src)). }
      rewrite IH, Hget. by destruct (mem src cols).
    + rewrite (bool_decide_eq_false_2 (k = src)) by done. simpl.
      destruct (dict_get mapping src) as [v|] eqn:Hget; [by rewrite IH|].
      destruct (mem src exclude_set); [by rewrite IH|].
      destruct (mem src dest_set); rewrite IH; [|done].
      rewrite dict_get_set. destruct (decide (src = k)); [congruence|done].
Qed.

(** X1. What [build_mapping] maps a column to, for an explicit map with
    distinct keys: nothing when the column is excluded; else the explicit
    destination when it is a destination column; else the column itself when
    it is both a source and a destination column; else nothing. *)
Theorem build_mapping_lookup (source_columns dest_columns : list string)
    (explicit_map : dict string string) (excludes : list string) (k : string) :
  NoDup (dict_keys explicit_map) ->
  dict_get (build_mapping source_columns dest_columns explicit_map excludes) k
  = let same_name :=
      if mem k source_columns && negb (mem k (make_exclude_set excludes))
         && mem k dest_columns
      then Some k else None in
    match dict_get explicit_map k with
    | Some dst =>
        if mem k (make_exclude_set excludes) then None
        else if mem dst dest_columns then Some dst else same_name
    | None => same_name
    end.
Proof.
  intros Hnd. unfold build_mapping. rewrite same_name_loop_get.
  rewrite explicit_loop_get by done. cbn [dict_get]. cbv zeta.
  destruct (dict_get explicit_map k) as [dst|]; [|done].
  destruct (mem k (make_exclude_set excludes)) eqn:Ex.
  - simpl. by rewrite andb_false_r.
  - by destruct (mem dst dest_columns).
Qed.

Lemma dict_set_fresh {V : Type} (d : dict string V) (k : string) (v : V) :
  dict_has d k = false -> dict_set d k v = d ++ [(k, v)].
Proof.
  unfold dict_has. induction d as [|[k0 v0] d IH]; simpl; [done|].
  destruct (decide (k0 = k)); [done|]. intros H. by rewrite IH.
Qed.

Lemma dict_has_false {V : Type} (d : dict string V) (k : string) :
  k ∉ dict_keys d -> dict_has d k = false.
Proof. intros H. unfold dict_has. by rewrite dict_get_not_key. Qed.

Lemma explicit_loop_filter (exclude_set dest_set : list string)
    (items mapping : dict string string) :
  NoDup (dict_keys mapping ++ dict_keys items) ->
  explicit_loop exclude_set dest_set items mapping
  = mapping
    ++ List.filter
         (fun p => negb (mem p.1 exclude_set) && mem p.2 dest_set) items.
Proof.
  revert mapping. induction items as [|[src dst] items IH]; intros mapping Hnd.
  - simpl. by rewrite app_nil_r.
  - cbn [explicit_loop List.filter fst snd].
    assert (NoDup (dict_keys mapping ++ dict_keys items)) as Hnd'.
    { unfold dict_keys in *. simpl in Hnd.
      apply NoDup_app in Hnd as (H1 & H2 & H3).
      apply NoDup_cons in H3 as [H3 H4]. apply NoDup_app.
      split; [done|]. split; [|done].
      intros x Hx Hx'. apply (H2 x Hx). by right. }
    destruct (mem src exclude_set); simpl; [by apply IH|].
    destruct (mem dst dest_set); [|by apply IH].
    assert (src ∉ dict_keys mapping) as Hfresh.
    { unfold dict_keys in *. simpl in Hnd.
      apply NoDup_app in Hnd as (_ & H2 & _). intros Hin.
      apply (H2 src Hin). by left. }
    rewrite dict_set_fresh by by apply dict_has_false.
    rewrite IH; [by rewrite <- app_assoc|].
    unfold dict_keys in *. simpl in Hnd. rewrite fmap_app. simpl.
    rewrite <- app_assoc. simpl.
    apply NoDup_app in Hnd as (H1 & H2 & H3).
    apply NoDup_cons in H3 as [H3 H4]. apply NoDup_app.
    split; [done|]. split.
    + intros x Hx Hx'. apply (H2 x Hx). done.
    + by apply NoDup_cons.
Qed.

Lemma same_name_loop_appends (exclude_set dest_set source_columns : list string)
    (mapping : dict string string) :
  ∃ tail,
    same_name_loop exclude_set dest_set source_columns mapping = mapping ++ tail
    ∧ Forall (fun p => p.1 = p.2) tail
    ∧ sublist (dict_keys tail) source_columns.
Proof.
  revert mapping. induction source_columns as [|src cols IH]; intros mapping.
  - exists []. simpl. rewrite app_nil_r. split; [done|]. split; constructor.
  - cbn [same_name_loop].
    destruct (dict_has mapping src) eqn:Hhas.
    { destruct (IH mapping) as (tail & -> & Hid & Hsub).
      exists tail. split; [done|]. split; [done|]. by apply sublist_cons. }
    destruct (mem src exclude_set).
    { destruct (IH mapping) as (tail & -> & Hid & Hsub).
      exists tail. split; [done|]. split; [done|]. by apply sublist_cons. }
    destruct (mem src dest_set).
    + rewrite dict_set_fresh by done.
      destruct (IH (mapping ++ [(src, src)])) as (tail & -> & Hid & Hsub).
      exists ((src, src) :: tail). rewrite <- app_assoc. split; [done|].
      split; [by constructor|]. simpl. by apply sublist_skip.
    + destruct (IH mapping) as (tail & -> & Hid & Hsub).
      exists tail. split; [done|]. split; [done|]. by apply sublist_cons.
Qed.

(** X2. The order of the mapping, which is the order of the selected
    columns: first the entries of the explicit map that are kept, in the
    order of the map, then identity entries for source columns, in the order
    of the source columns. *)
Theorem build_mapping_order (source_columns dest_columns : list string)
    (explicit_map : dict string string) (excludes : list string) :
  NoDup (dict_keys explicit_map) ->
  ∃ same_name,
    build_mapping source_columns dest_columns explicit_map excludes
    = List.filter
        (fun p => negb (mem p.1 (make_exclude_set excludes))
                  && mem p.2 dest_columns)
        explicit_map
      ++ same_name
    ∧ Forall (fun p => p.1 = p.2) same_name
    ∧ sublist (dict_keys same_name) source_columns.
Proof.
  intros Hnd. unfold build_mapping.
  destruct (same_name_loop_appends (make_exclude_set excludes) dest_columns
              source_columns
              (explicit_loop (make_exclude_set excludes) dest_columns
                 explicit_map [])) as (tail & Heq & Hid & Hsub).
  exists tail. rewrite Heq, explicit_loop_filter by done. done.
Qed.

End MappingLookup.

(** C4, as the code has it. When the identity column is in both column
    lists, the mapping that the run uses has it as a key. For an explicit map
    with distinct keys, its value is the explicit destination when the
    explicit map maps it, not excluded, to a destination column, and the
    identity column itself in every other case. *)
Theorem identity_column_kept (id_column : string)
    (source_columns dest_columns : list string)
    (explicit_map : dict string string) (excludes : list string) :
  id_column ∈ source_columns -> id_column ∈ dest_columns ->
  NoDup (dict_keys explicit_map) ->
  ∃ d,
    dict_get
      (MigrateArtworks.force_identity id_column source_columns dest_columns
         (MigrateArtworks.build_mapping source_columns dest_columns
            explicit_map excludes))
      id_column = Some d
    ∧ d ∈ dest_columns
    ∧ d = match dict_get explicit_map id_column with
          | Some dst =>
              if mem id_column (MigrateArtworks.make_exclude_set excludes)
              then id_column
              else if mem dst dest_columns then dst else id_column
          | None => id_column
          end.
Proof.
  intros Hs Hd Hnd. pose proof Hs as Hms. pose proof Hd as Hmd.
  apply mem_true in Hms, Hmd.
  set (m := MigrateArtworks.build_mapping source_columns dest_columns
              explicit_map excludes).
  assert (dict_get m id_column
          = match dict_get explicit_map id_column with
            | Some dst =>
                if mem id_column (MigrateArtworks.make_exclude_set excludes)
                then None
                else if mem dst dest_columns then Some dst else Some id_column
            | None =>
                if mem id_column (MigrateArtworks.make_exclude_set excludes)
                then None else Some id_column
            end) as Hlook.
  { unfold m, MigrateArtworks.build_mapping.
    rewrite same_name_loop_get, explicit_loop_get by done.
    cbn [dict_get]. rewrite Hms, Hmd.
    destruct (dict_get explicit_map id_column) as [dst|];
      destruct (mem id_column (MigrateArtworks.make_exclude_set excludes));
      try destruct (mem dst dest_columns); reflexivity. }
  unfold MigrateArtworks.force_identity, dict_has. rewrite Hms, Hmd.
  destruct (dict_get m id_column) as [v|] eqn:Hget; cbn [negb andb].
  - exists v. split; [done|].
    destruct (dict_get explicit_map id_column) as [dst|];
      destruct (mem id_column (MigrateArtworks.make_exclude_set excludes));
      try destruct (mem dst dest_columns) eqn:Hdst;
      try discriminate; injection Hlook as ->;
      (split; [first [done | by apply mem_true]|done]).
  - exists id_column. rewrite dict_get_set.
    destruct (decide (id_column = id_column)); [|done].
    split; [done|]. split; [done|].
    destruct (dict_get explicit_map id_column) as [dst|];
      destruct (mem id_column (MigrateArtworks.make_exclude_set excludes));
      try destruct (mem dst dest_columns); done.
Qed.

Lemma identity_column_kept_witness :
  "id" ∈ ["id"; "title"] ∧ "id" ∈ ["id"; "uuid"]
  ∧ NoDup (dict_keys [("id", "uuid"); ("title", "zz")])
  ∧ ∃ d,
      dict_get
        (MigrateArtworks.force_identity "id" ["id"; "title"] ["id"; "uuid"]
           (MigrateArtworks.build_mapping ["id"; "title"] ["id"; "uuid"]
              [("id", "uuid"); ("title", "zz")] ["order_id"]))
        "id" = Some d
      ∧ d ∈ ["id"; "uuid"]
      ∧ d = "uuid".
Proof.
  assert ("id" ∈ ["id"; "title"]) as Hs by (by left).
  assert ("id" ∈ ["id"; "uuid"]) as Hd by (by left).
  assert (NoDup (dict_keys [("id", "uuid"); ("title", "zz")])) as Hnd.
  { apply (bool_decide_unpack _). by vm_compute. }
  split; [exact Hs|]. split; [exact Hd|]. split; [exact Hnd|].
  exact (identity_column_kept "id" ["id"; "title"] ["id"; "uuid"]
           [("id", "uuid"); ("title", "zz")] ["order_id"] Hs Hd Hnd).
Defined.

Lemma build_mapping_lookup_witness :
  NoDup (dict_keys [("title", "name"); ("b", "zz")])
  ∧ dict_get
      (MigrateArtworks.build_mapping ["id"; "title"; "b"] ["id"; "name"; "b"]
         [("title", "name"); ("b", "zz")] ["order_id"]) "b"
    = Some "b".
Proof.
  assert (NoDup (dict_keys [("title", "name"); ("b", "zz")])) as Hnd.
  { apply (bool_decide_unpack _). by vm_compute. }
  split; [exact Hnd|].
  exact (build_mapping_lookup ["id"; "title"; "b"] ["id"; "name"; "b"]
           [("title", "name"); ("b", "zz")] ["order_id"] "b" Hnd).
Defined.

Lemma build_mapping_order_witness :
  NoDup (dict_keys [("title", "name"); ("b", "zz")])
  ∧ ∃ same_name,
      MigrateArtworks.build_mapping ["id"; "title"; "b"] ["id"; "name"; "b"]
        [("title", "name"); ("b", "zz")] ["order_id"]
      = List.filter
          (fun p => negb (mem p.1 (MigrateArtworks.make_exclude_set ["order_id"]))
                    && mem p.2 ["id"; "name"; "b"])
          [("title", "name"); ("b", "zz")]
        ++ same_name
      ∧ Forall (fun p => p.1 = p.2) same_name
      ∧ sublist (dict_keys same_name) ["id"; "title"; "b"].
Proof.
  assert (NoDup (dict_keys [("title", "name"); ("b", "zz")])) as Hnd.
  { apply (bool_decide_unpack _). by vm_compute. }
  split; [exact Hnd|].
  exact (build_mapping_order ["id"; "title"; "b"] ["id"; "name"; "b"]
           [("title", "name"); ("b", "zz")] ["order_id"] Hnd).
Defined.

(** ** The exclusions of a run *)

Section Exclusions.
Import MigrateArtworks.

Lemma rstrip_idempotent (chars : ascii -> bool) (s : string) :
  rstrip chars (rstrip chars s) = rstrip chars s.
Proof.
  induction s as [|c s IH]; [done|]. cbn [rstrip].
  destruct (rstrip chars s) as [|y r'] eqn:E.
  - destruct (chars c) eqn:Ec; [done|]. cbn [rstrip]. by rewrite Ec.
  - cbn [rstrip]. cbn [rstrip] in IH. by rewrite IH.
Qed.

Lemma lstrip_head (chars : ascii -> bool) (s : string) :
  match lstrip chars s with
  | EmptyString => True
  | String c _ => chars c = false
  end.
Proof.
  induction s as [|c s IH]; [done|]. cbn [lstrip].
  by destruct (chars c) eqn:Ec.
Qed.

Lemma lstrip_rstrip (chars : ascii -> bool) (s : string) :
  match s with
  | EmptyString => True
  | String c _ => chars c = false
  end ->
  lstrip chars (rstrip chars s) = rstrip chars s.
Proof.
  destruct s as [|c s]; [done|]. intros Hc. cbn [rstrip].
  destruct (rstrip chars s); [by rewrite Hc; cbn [lstrip]; rewrite Hc|].
  cbn [lstrip]. by rewrite Hc.
Qed.

Lemma strip_idempotent (s : string) : strip (strip s) = strip s.
Proof.
  unfold strip. rewrite lstrip_rstrip by apply lstrip_head.
  apply rstrip_idempotent.
Qed.

Lemma eqb_empty_false (s : string) : String.eqb s EmptyString = false <-> s ≠ EmptyString.
Proof. apply String.eqb_neq. Qed.

(** X3. The exclusions of a run are the comma-separated parts of
    [--exclude-columns], each without the blanks around it, the empty ones
    left out. *)
Theorem run_exclusions (a : args) (c : string) :
  c ∈ make_exclude_set (exclude_columns_of a)
  <-> c ≠ EmptyString
      ∧ ∃ part, part ∈ split comma (exclude_columns a) ∧ strip part = c.
Proof.
  unfold make_exclude_set, exclude_columns_of, truthy.
  destruct (String.eqb_spec (exclude_columns a) EmptyString) as [Hempty|Hne];
    cbn [negb].
  - rewrite Hempty. simpl. split; [by intros H; apply elem_of_nil in H|].
    intros [Hc (part & Hin & Hstrip)].
    apply list_elem_of_singleton in Hin. subst part. by vm_compute in Hstrip.
  - rewrite list_elem_of_fmap. split.
    + intros (e & -> & Hin). apply list_elem_of_In, filter_In in Hin as [Hin Hkeep].
      apply list_elem_of_In, list_elem_of_fmap in Hin as (part & -> & Hpart).
      apply andb_true_iff in Hkeep as [_ Hkeep].
      apply negb_true_iff, eqb_empty_false in Hkeep.
      rewrite strip_idempotent in *. split; [done|]. by exists part.
    + intros [Hc (part & Hin & <-)]. exists (strip part).
      rewrite strip_idempotent. split; [done|].
      apply list_elem_of_In, filter_In. split.
      * apply list_elem_of_In, list_elem_of_fmap. by exists part.
      * rewrite strip_idempotent.
        apply eqb_empty_false in Hc. by rewrite Hc.
Qed.

End Exclusions.

(** ** Batches of any size *)

Section AnyBatchSize.
Import MigrateArtworks.

Lemma chunked_loop_concat {A : Type} (size : Z) (items batch : list A) :
  concat (chunked_loop items size batch) = batch ++ items
  ∧ Forall (fun b => b ≠ []) (chunked_loop items size batch).
Proof.
  revert batch. induction items as [|item rest IH]; intros batch; simpl.
  - rewrite app_nil_r. destruct batch; simpl; [by split|].
    rewrite app_nil_r. split; [done|]. by repeat constructor.
  - destruct (size <=? Z.of_nat (length (batch ++ [item])))%Z.
    + destruct (IH []) as [Hcat Hne]. simpl. rewrite Hcat, <- app_assoc.
      split; [done|]. constructor; [by destruct batch|done].
    + destruct (IH (batch ++ [item])) as [Hcat Hne].
      rewrite Hcat, <- app_assoc. done.
Qed.

Lemma chunked_singletons {A : Type} (items : list A) (size : Z) :
  (size <= 1)%Z -> chunked_loop items size [] = map (fun x => [x]) items.
Proof.
  intros Hsize. induction items as [|item rest IH]; [done|].
  cbn [chunked_loop app length map].
  destruct (Z.leb_spec size (Z.of_nat 1)) as [_|Hgt]; [by rewrite IH|lia].
Qed.

(** X4. For every size, also zero or negative, [chunked] loses no item,
    keeps the order and yields no empty batch; for a size of at most one
    every item is a batch of its own. *)
Theorem chunked_any_size {A : Type} (items : list A) (size : Z) :
  concat (chunked items size) = items
  ∧ Forall (fun b => b ≠ []) (chunked items size)
  ∧ chunked items (Z.min size 1) = map (fun x => [x]) items.
Proof.
  unfold chunked. destruct (chunked_loop_concat size items []) as [Hcat Hne].
  split; [done|]. split; [done|]. apply chunked_singletons. lia.
Qed.

End AnyBatchSize.

(** ** Table names and catalogs *)

Section TableNames.
Import MigrateArtworks.

Lemma split_append (sep : ascii) (a b : string) :
  count_char sep a = 0 ->
  split sep (a +:+ String sep b) = a :: split sep b.
Proof.
  induction a as [|c a IH]; simpl.
  - intros _. by rewrite Ascii.eqb_refl.
  - destruct (Ascii.eqb c sep); [done|]. simpl. intros H. by rewrite IH.
Qed.

Lemma split_clean (sep : ascii) (s : string) :
  count_char sep s = 0 -> split sep s = [s].
Proof.
  induction s as [|c s IH]; simpl; [done|].
  destruct (Ascii.eqb c sep); [done|]. simpl. intros H. by rewrite IH.
Qed.

(** X6. A qualified name made of a schema and a relation without dots is
    taken apart into these two, and [fetch_columns] then asks the catalog
    for the relation in that schema; for a name without a dot it asks in the
    schema [public]. *)
Theorem qualified_name_round_trip (cat : catalog) (schema name : string) :
  count_char dot schema = 0 -> count_char dot name = 0 ->
  normalize_table_name (schema +:+ "." +:+ name) = Ok (Some schema, name)
  ∧ fetch_columns cat (schema +:+ "." +:+ name) = Ok (cat schema name)
  ∧ fetch_columns cat name = Ok (cat "public" name).
Proof.
  intros Hs Hn. unfold fetch_columns, normalize_table_name.
  change (schema +:+ "." +:+ name) with (schema +:+ String dot name).
  rewrite split_append, !split_clean by done. done.
Qed.

End TableNames.

Lemma qualified_name_round_trip_witness :
  count_char dot "legacy" = 0 ∧ count_char dot "artwork_artwork" = 0
  ∧ MigrateArtworks.normalize_table_name ("legacy" +:+ "." +:+ "artwork_artwork")
    = Ok (Some "legacy", "artwork_artwork")
  ∧ MigrateArtworks.fetch_columns (fun s r => [s; r])
      ("legacy" +:+ "." +:+ "artwork_artwork")
    = Ok ((fun s r => [s; r]) "legacy" "artwork_artwork")
  ∧ MigrateArtworks.fetch_columns (fun s r => [s; r]) "artwork_artwork"
    = Ok ((fun s r => [s; r]) "public" "artwork_artwork").
Proof.
  split; [reflexivity|]. split; [reflexivity|].
  exact (qualified_name_round_trip (fun s r => [s; r]) "legacy"
           "artwork_artwork" eq_refl eq_refl).
Defined.

(** ** The policies of the upsert *)

Section Policies.
Import MigrateArtworks.

(** X7. Every policy string other than [skip] and [update], whatever its
    spelling, is the error policy: the insert has no conflict clause. *)
Theorem unknown_policy_is_error (c : conn) (dest_table : string)
    (mapping : dict string string) (rows : list row) (policy : string)
    (conflict_target : list string) (dry_run : bool) :
  policy ≠ "skip" -> policy ≠ "update" ->
  upsert_rows c dest_table mapping rows policy conflict_target dry_run
  = upsert_rows c dest_table mapping rows "error" conflict_target dry_run.
Proof.
  intros Hskip Hupdate. unfold upsert_rows.
  apply String.eqb_neq in Hskip, Hupdate. by rewrite Hskip, Hupdate.
Qed.

Lemma executemany_appends (st : statement) (values : list (list value))
    (c : conn) :
  (forall target assignments, st_conflict st ≠ DoUpdate target assignments) ->
  ∃ added,
    txn (executemany st c values).1 = txn c ++ added
    ∧ length added <= length values.
Proof.
  intros Hst. revert c. induction values as [|tuple rest IH]; intros c.
  - exists []. simpl. by rewrite app_nil_r.
  - cbn [executemany]. unfold execute at 1.
    destruct (st_conflict st) as [|target|target assignments] eqn:E;
      [| |by destruct (Hst target assignments)].
    + destruct (conflicts _ _ _).
      { exists []. simpl. rewrite app_nil_r. split; [done|lia]. }
      destruct (IH (with_txn c (txn c ++ [stored_row (st_columns st) tuple])))
        as (added & Ht & Hlen).
      exists (stored_row (st_columns st) tuple :: added). rewrite Ht. simpl.
      rewrite <- app_assoc. split; [done|lia].
    + destruct (negb _).
      { exists []. simpl. rewrite app_nil_r. split; [done|lia]. }
      destruct (conflicts _ _ _).
      { destruct (IH c) as (added & Ht & Hlen). exists added.
        split; [done|]. simpl. lia. }
      destruct (IH (with_txn c (txn c ++ [stored_row (st_columns st) tuple])))
        as (added & Ht & Hlen).
      exists (stored_row (st_columns st) tuple :: added). rewrite Ht. simpl.
      rewrite <- app_assoc. split; [done|lia].
Qed.

(** X9. Under every policy but [update], whether the call returns or
    raises, the rows that the destination had are still there, unchanged and
    in place: [upsert_rows] only appends, and at most one row per row of the
    batch. *)
Theorem only_update_rewrites (c : conn) (dest_table : string)
    (mapping : dict string string) (rows : list row) (policy : string)
    (conflict_target : list string) (dry_run : bool) :
  policy ≠ "update" ->
  ∃ added,
    txn (out_conn (upsert_rows c dest_table mapping rows policy
                     conflict_target dry_run)) = txn c ++ added
    ∧ length added <= length rows.
Proof.
  intros Hupdate. apply String.eqb_neq in Hupdate. unfold upsert_rows.
  destruct rows as [|r rows].
  { exists []. simpl. by rewrite app_nil_r. }
  destruct dry_run.
  { exists []. simpl. rewrite app_nil_r. split; [done|lia]. }
  rewrite Hupdate.
  match goal with |- context [executemany ?st c ?vs] =>
    destruct (executemany_appends st vs c) as (added & Ht & Hlen);
    [|destruct (executemany st c vs) as [c' [u|e]]]
  end.
  - intros target assignments. cbn [st_conflict].
    by destruct (String.eqb policy "skip").
  - exists added. simpl in *. rewrite length_map in Hlen. done.
  - exists added. simpl in *. rewrite length_map in Hlen. done.
Qed.

(** ** The batch loop *)

Lemma commit_clean (c : conn) : txn c = committed c -> commit c = c.
Proof. destruct c as [u co t]. simpl. by intros ->. Qed.

Lemma rollback_clean (c : conn) : txn c = committed c -> rollback c = c.
Proof. destruct c as [u co t]. simpl. by intros ->. Qed.

Lemma batch_loop_dry (a : args) (mapping : dict string string)
    (conflict_target : list string) (st : run_state)
    (batches : list (list row)) :
  dry_run a = true ->
  batch_loop a mapping conflict_target st batches
  = ({| dst := dst st; migrated := migrated st;
        would_migrate := would_migrate st + length (concat batches) |}, Ok tt).
Proof.
  intros Hdry. revert st.
  induction batches as [|batch rest IH]; intros st.
  - simpl. destruct st. simpl. by rewrite Nat.add_0_r.
  - cbn [batch_loop]. unfold batch_step. rewrite Hdry.
    assert (upsert_rows (dst st) (dest_table_of a) mapping batch
              (on_conflict a) conflict_target true
            = {| out_conn := dst st;
                 out_built := out_built
                   (upsert_rows (dst st) (dest_table_of a) mapping batch
                      (on_conflict a) conflict_target true);
                 out_result := Ok (0, 0) |}) as Hout.
    { unfold upsert_rows. by destruct batch. }
    rewrite Hout. cbn [out_result out_conn]. rewrite IH. simpl.
    rewrite length_app, Nat.add_0_r. f_equal. f_equal. lia.
Qed.

(** X10. In a dry run the batch loop raises only what the source raises, a
    failing query or fetch, and nothing of its own; whatever the source does,
    the destination connection and the migrated count stay as they were, and
    the count of rows that would be migrated grows by the rows of the batches
    that the source has yielded. *)
Theorem dry_run_batch_loop (a : args) (mapping : dict string string)
    (conflict_target : list string) (st : run_state) (stream : source_stream) :
  dry_run a = true ->
  batch_loop_over a mapping conflict_target st stream
  = ({| dst := dst st; migrated := migrated st;
        would_migrate := would_migrate st + length (concat stream.1) |},
     match stream.2 with
     | Some e => Raise e
     | None => Ok tt
     end).
Proof.
  intros Hdry. unfold batch_loop_over. rewrite batch_loop_dry by done.
  by destruct stream.2.
Qed.

(** X11. In a run that writes, when the batch loop ends without raising,
    the migrated count and the would-migrate count have both grown by the
    number of rows read, whatever the policy skipped or updated. *)
Theorem migrated_counts_rows_read (a : args) (mapping : dict string string)
    (conflict_target : list string) (st st' : run_state)
    (batches : list (list row)) :
  dry_run a = false ->
  batch_loop a mapping conflict_target st batches = (st', Ok tt) ->
  migrated st' = migrated st + length (concat batches)
  ∧ would_migrate st' = would_migrate st + length (concat batches).
Proof.
  intros Hdry. revert st.
  induction batches as [|batch rest IH]; intros st.
  - simpl. intros [= <-]. lia.
  - cbn [batch_loop].
    destruct (batch_step a mapping conflict_target st batch) as [st1 [[]|e]]
      eqn:Hstep; [|done].
    intros Hrest. destruct (IH st1 Hrest) as [Hm Hw].
    unfold batch_step in Hstep. rewrite Hdry in Hstep.
    destruct (out_result _) as [[inserted skipped]|e] eqn:Hres; [|done].
    apply upsert_rows_returns_batch_length in Hres. injection Hres as -> ->.
    injection Hstep as <-. simpl in *. rewrite length_app. lia.
Qed.

(** X12. A dry run of [main] on a connection without open writes leaves the
    destination connection exactly as it was, however the run ends, and
    reports no migrated row. *)
Theorem dry_run_main_keeps_destination (a : args)
    (src_catalog dst_catalog dst_pk_catalog : catalog) (src_conn : source_db)
    (dst_conn : conn) :
  dry_run a = true ->
  txn dst_conn = committed dst_conn ->
  dst (main a src_catalog dst_catalog dst_pk_catalog src_conn dst_conn).1
  = dst_conn
  ∧ migrated (main a src_catalog dst_catalog dst_pk_catalog src_conn dst_conn).1
    = 0.
Proof.
  intros Hdry Hclean. unfold main.
  destruct (fetch_columns src_catalog (source_table a)) as [src_columns|e];
    [|simpl; by rewrite rollback_clean].
  destruct (fetch_columns dst_catalog (dest_table_of a)) as [dst_columns|e];
    [|simpl; by rewrite rollback_clean].
  destruct (fetch_columns dst_pk_catalog (dest_table_of a)) as [pk_columns|e];
    [|simpl; by rewrite rollback_clean].
  rewrite batch_loop_dry by done. simpl. by rewrite commit_clean.
Qed.


End Policies.

(** ** The run of the image transfer *)

Section TransferRun.
Import MigrateImages.
Context {W : Type} (env : Env W).

Ltac unfold_run :=
  unfold process_row, transfer, report, progress, download_image, upload_image,
    run_curl, makedirs, run, remove_quietly, exists_, try_except, lift,
    incr_total, incr_downloaded, incr_uploaded, incr_skipped_download, emit,
    bind, ret, raise, set_world, curl_event in *.

Ltac step_run :=
  repeat (simpl in *;
          match goal with
          | |- context [subprocess_run env ?w ?c] =>
              let code := fresh "code" in
              let out := fresh "out" in
              let err := fresh "err" in
              let w' := fresh "w" in
              destruct (subprocess_run env w c) as [w' [[[code out] err]|]]
          | |- context [os_makedirs env ?w ?p] =>
              let w' := fresh "w" in
              destruct (os_makedirs env w p) as [w' []]
          | |- context [os_remove env ?w ?p] =>
              let w' := fresh "w" in
              destruct (os_remove env w p) as [w' []]
          | |- context [Z.eqb ?c 0] => destruct (Z.eqb c 0)
          | |- context [Nat.eqb ?c 0] => destruct (Nat.eqb c 0)
          | |- context [path_exists env ?w ?p] =>
              destruct (path_exists env w p)
          end).

(** X14. Once [ensure_prereqs] has passed, [resolve_upload_url] never
    raises and never takes its last resort: the address is the prefix joined
    with [artworks/<id>/images] when a prefix is given, and else the template
    with the identifier in place of the placeholder. *)
Theorem upload_url_resolved (a : args) (artwork_id : string) :
  ensure_prereqs a = Ok tt ->
  resolve_upload_url a artwork_id
  = Ok (if truthy (upload_prefix a)
        then join_url (the_str (upload_prefix a))
               ("artworks/" +:+ artwork_id +:+ "/images")
        else replace placeholder artwork_id (the_str (upload_url a))).
Proof.
  unfold ensure_prereqs, resolve_upload_url.
  destruct (truthy (source_dsn a)); [|done]. simpl.
  destruct (truthy (fetch_prefix a)); [|done]. simpl.
  destruct (truthy (upload_prefix a)); [done|]. simpl.
  by destruct (truthy (upload_url a) && contains_in placeholder (upload_url a)).
Qed.

Lemma quiet_row (a : args) (save_root : string) (row : ImageRow)
    (st : state W) :
  ensure_prereqs a = Ok tt ->
  dry_run a = true ->
  ∃ st' new,
    process_row env a save_root row st = (st', Ok tt)
    ∧ events st' = events st ++ new
    ∧ forallb (fun ev => negb (is_real_action ev)) new = true
    ∧ total st' = total st + 1.
Proof.
  intros Hpre Hdry.
  destruct (prereqs_fetch_prefix a Hpre) as [prefix Hprefix].
  destruct (prereqs_upload_url a (artwork_id row) Hpre) as [url Hurl].
  unfold_run. unfold fetch_url_of. rewrite Hprefix, Hurl, Hdry. simpl.
  rewrite andb_false_r. simpl.
  destruct (skip_download a); step_run;
    eexists _, _; (split; [reflexivity|]); simpl; rewrite <- ?app_assoc;
    (split; [reflexivity|]); done.
Qed.

Lemma counted_row (a : args) (save_root : string) (row : ImageRow)
    (st : state W) :
  ensure_prereqs a = Ok tt ->
  ∃ st' new,
    process_row env a save_root row st = (st', Ok tt)
    ∧ events st' = events st ++ new
    ∧ total st' = total st + 1
    ∧ uploaded st' + count_errors new = uploaded st + 1
    ∧ downloaded st' + skipped_download st'
      <= downloaded st + skipped_download st + 1
    ∧ uploaded st' + (downloaded st + skipped_download st)
      <= uploaded st + (downloaded st' + skipped_download st').
Proof.
  intros Hpre.
  destruct (prereqs_fetch_prefix a Hpre) as [prefix Hprefix].
  destruct (prereqs_upload_url a (artwork_id row) Hpre) as [url Hurl].
  unfold_run. unfold fetch_url_of. rewrite Hprefix, Hurl. simpl.
  destruct (skip_download a), (dry_run a), (cleanup a); step_run;
    eexists _, _; (split; [reflexivity|]); simpl; rewrite <- ?app_assoc;
    (split; [reflexivity|]); unfold count_errors; simpl; lia.
Qed.

Lemma main_loop_step (a : args) (save_root : string) (row : ImageRow)
    (rest : list ImageRow) (st st1 : state W) :
  process_row env a save_root row st = (st1, Ok tt) ->
  main_loop env a save_root (row :: rest) st
  = main_loop env a save_root rest st1.
Proof. intros H. cbn [main_loop]. unfold bind at 1. by rewrite H. Qed.

Lemma count_errors_app (xs ys : list event) :
  count_errors (xs ++ ys) = count_errors xs + count_errors ys.
Proof. unfold count_errors. by rewrite List.filter_app, length_app. Qed.

Lemma quiet_loop (a : args) (save_root : string) (rows : list ImageRow)
    (st : state W) :
  ensure_prereqs a = Ok tt ->
  dry_run a = true ->
  ∃ st' new,
    main_loop env a save_root rows st = (st', Ok tt)
    ∧ events st' = events st ++ new
    ∧ forallb (fun ev => negb (is_real_action ev)) new = true.
Proof.
  intros Hpre Hdry. revert st. induction rows as [|row rows IH]; intros st.
  - exists st, []. simpl. by rewrite app_nil_r.
  - destruct (quiet_row a save_root row st Hpre Hdry)
      as (st1 & new1 & Hrow & Hev1 & Hq1 & _).
    destruct (IH st1) as (st' & new & Hloop & Hev & Hq).
    exists st', (new1 ++ new). rewrite (main_loop_step _ _ _ _ _ _ Hrow).
    split; [done|]. rewrite Hev, Hev1, <- app_assoc. split; [done|].
    by rewrite forallb_app, Hq1, Hq.
Qed.

Lemma counted_loop (a : args) (save_root : string) (rows : list ImageRow)
    (st : state W) :
  ensure_prereqs a = Ok tt ->
  ∃ st' new,
    main_loop env a save_root rows st = (st', Ok tt)
    ∧ events st' = events st ++ new
    ∧ total st' = total st + length rows
    ∧ uploaded st' + count_errors new = uploaded st + length rows
    ∧ downloaded st' + skipped_download st'
      <= downloaded st + skipped_download st + length rows
    ∧ uploaded st' + (downloaded st + skipped_download st)
      <= uploaded st + (downloaded st' + skipped_download st').
Proof.
  intros Hpre. revert st. induction rows as [|row rows IH]; intros st.
  - exists st, []. simpl. rewrite app_nil_r. unfold count_errors. simpl.
    repeat split; lia.
  - destruct (counted_row a save_root row st Hpre)
      as (st1 & new1 & Hrow & Hev1 & Ht1 & Hu1 & Hd1 & Hs1).
    destruct (IH st1) as (st' & new & Hloop & Hev & Ht & Hu & Hd & Hs).
    exists st', (new1 ++ new). rewrite (main_loop_step _ _ _ _ _ _ Hrow).
    split; [done|]. rewrite Hev, Hev1, <- app_assoc. split; [done|].
    rewrite count_errors_app. simpl. repeat split; lia.
Qed.

(** X15. [main] ends with an exception in two ways only: [ensure_prereqs]
    refuses the configuration, and then nothing is done; or the database
    raises, at the connection, the query or a fetch, after the rows yielded
    before have been processed. The failure of single assets never ends it,
    and the total counts the rows that the database has yielded. *)
Theorem main_exit (a : args) (here : string)
    (src_conn : string -> images_stream) (w : W) :
  match ensure_prereqs a with
  | Raise e =>
      main_over env a here src_conn w = (initial w, Raise e)
      ∧ is_exception e = false
  | Ok _ =>
      ∃ st',
        main_over env a here src_conn w
        = (st',
           match (src_conn (images_sql (source_table a) (where_ a) (limit a))).2
           with
           | Some e => Raise e
           | None => Ok tt
           end)
        ∧ total st'
          = length
              (src_conn (images_sql (source_table a) (where_ a) (limit a))).1
  end.
Proof.
  unfold main_over. destruct (ensure_prereqs a) as [[]|e] eqn:Hpre.
  - destruct (counted_loop a (os_path_join here (save_dir a))
                (src_conn (images_sql (source_table a) (where_ a) (limit a))).1
                (initial w) Hpre) as (st' & new & Hloop & _ & Ht & _).
    exists st'. unfold main_loop_over, bind. rewrite Hloop.
    split; [by destruct (_.2)|]. by rewrite Ht.
  - split; [done|]. unfold ensure_prereqs in Hpre.
    repeat match type of Hpre with
           | (if ?b then _ else _) = _ => destruct b
           end; by inversion Hpre.
Qed.

(** X16. A dry run of [main] runs no subprocess and removes no file. *)
Theorem dry_run_is_quiet (a : args) (here : string) (src_conn : images_db)
    (w : W) :
  dry_run a = true ->
  forallb (fun ev => negb (is_real_action ev))
    (events (main env a here src_conn w).1) = true.
Proof.
  intros Hdry. unfold main. destruct (ensure_prereqs a) as [[]|e] eqn:Hpre;
    [|done].
  destruct (quiet_loop a (os_path_join here (save_dir a))
              (query_images src_conn (source_table a) (where_ a) (limit a))
              (initial w) Hpre Hdry) as (st' & new & Hloop & Hev & Hq).
  rewrite Hloop. simpl in *. by rewrite Hev.
Qed.

(** X17. At the end of a run that [ensure_prereqs] has let through, every
    asset is either counted as uploaded or reported with an error, never
    both; and no more assets are counted as uploaded than were downloaded or
    found in place, and no more of these than were processed. *)
Theorem counters_account_for_assets (a : args) (here : string)
    (src_conn : images_db) (w : W) :
  ensure_prereqs a = Ok tt ->
  let st' := (main env a here src_conn w).1 in
  uploaded st' + count_errors (events st') = total st'
  ∧ uploaded st' <= downloaded st' + skipped_download st'
  ∧ downloaded st' + skipped_download st' <= total st'.
Proof.
  intros Hpre. unfold main. rewrite Hpre.
  destruct (counted_loop a (os_path_join here (save_dir a))
              (query_images src_conn (source_table a) (where_ a) (limit a))
              (initial w) Hpre)
    as (st' & new & Hloop & Hev & Ht & Hu & Hd & Hs).
  rewrite Hloop. simpl in *. rewrite Hev. lia.
Qed.

(** X18. The local file of an asset is removed only when cleanup is asked
    for, the run is not dry and the upload of that asset has succeeded; no
    other file is ever removed. *)
Theorem cleanup_only_after_upload (a : args) (save_root : string)
    (row : ImageRow) (st : state W) :
  ensure_prereqs a = Ok tt ->
  ∃ st' new,
    process_row env a save_root row st = (st', Ok tt)
    ∧ events st' = events st ++ new
    ∧ forall path,
        EvRemove path ∈ new ->
        path = os_path_join save_root (image_path row)
        ∧ cleanup a = true ∧ dry_run a = false
        ∧ uploaded st' = uploaded st + 1.
Proof.
  intros Hpre.
  destruct (prereqs_fetch_prefix a Hpre) as [prefix Hprefix].
  destruct (prereqs_upload_url a (artwork_id row) Hpre) as [url Hurl].
  unfold_run. unfold fetch_url_of. rewrite Hprefix, Hurl. simpl.
  destruct (skip_download a), (dry_run a), (cleanup a); step_run;
    eexists _, _; (split; [reflexivity|]); simpl; rewrite <- ?app_assoc;
    (split; [reflexivity|]); intros path Hin; simpl in Hin;
    repeat (apply elem_of_cons in Hin as [Hin|Hin];
            [try discriminate Hin; try (injection Hin as ->; done)|]);
    by apply elem_of_nil in Hin.
Qed.


End TransferRun.

(** ** Instances *)

Lemma unknown_policy_is_error_witness :
  "Skip" ≠ "skip" ∧ "Skip" ≠ "update"
  ∧ MigrateArtworks.upsert_rows
      (MigrateArtworks.example_conn [MigrateArtworks.example_row 1])
      "artwork_artwork" [("id", "id")] [MigrateArtworks.example_row 1]
      "Skip" ["id"] false
    = MigrateArtworks.upsert_rows
        (MigrateArtworks.example_conn [MigrateArtworks.example_row 1])
        "artwork_artwork" [("id", "id")] [MigrateArtworks.example_row 1]
        "error" ["id"] false.
Proof.
  assert ("Skip" ≠ "skip") as H1 by discriminate.
  assert ("Skip" ≠ "update") as H2 by discriminate.
  split; [exact H1|]. split; [exact H2|].
  exact (unknown_policy_is_error
           (MigrateArtworks.example_conn [MigrateArtworks.example_row 1])
           "artwork_artwork" [("id", "id")] [MigrateArtworks.example_row 1]
           "Skip" ["id"] false H1 H2).
Defined.

Lemma only_update_rewrites_witness :
  let c := MigrateArtworks.example_conn [MigrateArtworks.example_row 1] in
  let rows := [MigrateArtworks.example_row 1; MigrateArtworks.example_row 2] in
  "error" ≠ "update"
  ∧ ∃ added,
      MigrateArtworks.txn
        (MigrateArtworks.out_conn
           (MigrateArtworks.upsert_rows c "artwork_artwork" [("id", "id")]
              rows "error" ["id"] false))
      = MigrateArtworks.txn c ++ added
      ∧ length added <= length rows.
Proof.
  cbv zeta. assert ("error" ≠ "update") as H by discriminate.
  split; [exact H|].
  exact (only_update_rewrites
           (MigrateArtworks.example_conn [MigrateArtworks.example_row 1])
           "artwork_artwork" [("id", "id")]
           [MigrateArtworks.example_row 1; MigrateArtworks.example_row 2]
           "error" ["id"] false H).
Defined.

Lemma dry_run_batch_loop_witness :
  let a := MigrateArtworks.example_dry_args in
  let st := MigrateArtworks.example_start in
  let stream : MigrateArtworks.source_stream :=
    ([[MigrateArtworks.example_row 1; MigrateArtworks.example_row 2];
      [MigrateArtworks.example_row 3]],
     Some (DatabaseError (MsgDatabase "connection lost"))) in
  MigrateArtworks.dry_run a = true
  ∧ MigrateArtworks.batch_loop_over a [("id", "id")] ["id"] st stream
    = ({| MigrateArtworks.dst := MigrateArtworks.dst st;
          MigrateArtworks.migrated := MigrateArtworks.migrated st;
          MigrateArtworks.would_migrate :=
            MigrateArtworks.would_migrate st + 3 |},
       Raise (DatabaseError (MsgDatabase "connection lost"))).
Proof.
  cbv zeta. split; [reflexivity|].
  exact (dry_run_batch_loop MigrateArtworks.example_dry_args [("id", "id")]
           ["id"] MigrateArtworks.example_start
           ([[MigrateArtworks.example_row 1; MigrateArtworks.example_row 2];
             [MigrateArtworks.example_row 3]],
            Some (DatabaseError (MsgDatabase "connection lost"))) eq_refl).
Defined.

Lemma migrated_counts_rows_read_witness :
  let a := MigrateArtworks.example_args in
  let st := MigrateArtworks.example_start in
  let st' := MigrateArtworks.example_after_first in
  let batches := [[MigrateArtworks.example_row 2]] in
  MigrateArtworks.dry_run a = false
  ∧ MigrateArtworks.batch_loop a [("id", "id")] ["id"] st batches = (st', Ok tt)
  ∧ MigrateArtworks.migrated st'
    = MigrateArtworks.migrated st + length (concat batches)
  ∧ MigrateArtworks.would_migrate st'
    = MigrateArtworks.would_migrate st + length (concat batches).
Proof.
  cbv zeta. split; [reflexivity|]. split; [reflexivity|].
  exact (migrated_counts_rows_read MigrateArtworks.example_args [("id", "id")]
           ["id"] MigrateArtworks.example_start
           MigrateArtworks.example_after_first
           [[MigrateArtworks.example_row 2]] eq_refl eq_refl).
Defined.

Lemma dry_run_main_keeps_destination_witness :
  let a := MigrateArtworks.example_dry_args in
  let cat := fun (_ _ : string) => ["id"; "title"] in
  let src := fun (_ : string) =>
    [MigrateArtworks.example_row 1; MigrateArtworks.example_row 2] in
  let dst_conn := MigrateArtworks.example_conn [MigrateArtworks.example_row 1] in
  MigrateArtworks.dry_run a = true
  ∧ MigrateArtworks.txn dst_conn = MigrateArtworks.committed dst_conn
  ∧ MigrateArtworks.dst (MigrateArtworks.main a cat cat cat src dst_conn).1
    = dst_conn
  ∧ MigrateArtworks.migrated
      (MigrateArtworks.main a cat cat cat src dst_conn).1 = 0.
Proof.
  cbv zeta. split; [reflexivity|]. split; [reflexivity|].
  exact (dry_run_main_keeps_destination MigrateArtworks.example_dry_args
           (fun _ _ => ["id"; "title"]) (fun _ _ => ["id"; "title"])
           (fun _ _ => ["id"; "title"])
           (fun _ => [MigrateArtworks.example_row 1;
                      MigrateArtworks.example_row 2])
           (MigrateArtworks.example_conn [MigrateArtworks.example_row 1])
           eq_refl eq_refl).
Defined.


Lemma upload_url_resolved_witness :
  MigrateImages.ensure_prereqs MigrateImages.example_dry_args = Ok tt
  ∧ MigrateImages.resolve_upload_url MigrateImages.example_dry_args "a1"
    = Ok "https://api.example.com/artworks/a1/images".
Proof.
  split; [reflexivity|].
  exact (upload_url_resolved MigrateImages.example_dry_args "a1" eq_refl).
Defined.

Lemma dry_run_is_quiet_witness :
  let rows := fun (_ : string) =>
    [MigrateImages.example_image 1 "x.png";
     MigrateImages.example_image 2 "d/y.png"] in
  MigrateImages.dry_run MigrateImages.example_dry_args = true
  ∧ forallb (fun ev => negb (MigrateImages.is_real_action ev))
      (MigrateImages.events
         (MigrateImages.main MigrateImages.example_env
            MigrateImages.example_dry_args "/srv/scripts" rows
            ["/srv/scripts/images/x.png"]).1) = true.
Proof.
  cbv zeta. split; [reflexivity|].
  exact (dry_run_is_quiet MigrateImages.example_env
           MigrateImages.example_dry_args "/srv/scripts"
           (fun _ => [MigrateImages.example_image 1 "x.png";
                      MigrateImages.example_image 2 "d/y.png"])
           ["/srv/scripts/images/x.png"] eq_refl).
Defined.

Lemma counters_account_for_assets_witness :
  let rows := fun (_ : string) =>
    [MigrateImages.example_image 1 "x.png";
     MigrateImages.example_image 2 "y.png"] in
  MigrateImages.ensure_prereqs MigrateImages.example_args = Ok tt
  ∧ (let st' :=
       (MigrateImages.main MigrateImages.example_env MigrateImages.example_args
          "/srv/scripts" rows ["/srv/scripts/images/x.png"]).1 in
     MigrateImages.uploaded st'
     + MigrateImages.count_errors (MigrateImages.events st')
     = MigrateImages.total st'
     ∧ MigrateImages.uploaded st'
       <= MigrateImages.downloaded st' + MigrateImages.skipped_download st'
     ∧ MigrateImages.downloaded st' + MigrateImages.skipped_download st'
       <= MigrateImages.total st').
Proof.
  cbv zeta. split; [reflexivity|].
  exact (counters_account_for_assets MigrateImages.example_env
           MigrateImages.example_args "/srv/scripts"
           (fun _ => [MigrateImages.example_image 1 "x.png";
                      MigrateImages.example_image 2 "y.png"])
           ["/srv/scripts/images/x.png"] eq_refl).
Defined.

Lemma cleanup_only_after_upload_witness :
  let a := MigrateImages.example_cleanup_args in
  let row := MigrateImages.example_image 1 "x.png" in
  let st := MigrateImages.initial ([] : list string) in
  MigrateImages.ensure_prereqs a = Ok tt
  ∧ ∃ st' new,
      MigrateImages.process_row MigrateImages.example_online_env a
        "/srv/scripts/images" row st = (st', Ok tt)
      ∧ MigrateImages.events st' = MigrateImages.events st ++ new
      ∧ MigrateImages.EvRemove "/srv/scripts/images/x.png" ∈ new
      ∧ "/srv/scripts/images/x.png"
        = os_path_join "/srv/scripts/images" (MigrateImages.image_path row)
      ∧ MigrateImages.cleanup a = true ∧ MigrateImages.dry_run a = false
      ∧ MigrateImages.uploaded st' = MigrateImages.uploaded st + 1.
Proof.
  cbv zeta. split; [reflexivity|].
  destruct (cleanup_only_after_upload MigrateImages.example_online_env
              MigrateImages.example_cleanup_args "/srv/scripts/images"
              (MigrateImages.example_image 1 "x.png")
              (MigrateImages.initial ([] : list string)) eq_refl)
    as (st' & new & Hrun & Hev & Hremoved).
  assert (MigrateImages.EvRemove "/srv/scripts/images/x.png" ∈ new) as Hin.
  { vm_compute in Hrun. injection Hrun as <-. simpl in Hev. subst new.
    do 3 right. by left. }
  exists st', new. split; [exact Hrun|]. split; [exact Hev|].
  split; [exact Hin|]. exact (Hremoved _ Hin).
Defined.


Lemma download_failure_raises_witness :
  let st := MigrateImages.initial ([] : list string) in
  let env := MigrateImages.example_offline_env in
  MigrateImages.os_makedirs env (MigrateImages.world st) (dirname "/srv/i/x.png")
  = ([], true)
  ∧ MigrateImages.subprocess_run env []
      (MigrateImages.download_command "https://old/x.png" "/srv/i/x.png")
    = ([], Some (22%Z, EmptyString, "curl: (22) 404 "))
  ∧ 22%Z ≠ 0%Z
  ∧ ∃ st',
      MigrateImages.download_image env "https://old/x.png" "/srv/i/x.png"
        false st
      = (st', Raise (RuntimeError
                       (MsgDownloadFailed 22 "https://old/x.png"
                          (MigrateImages.or_str (strip "curl: (22) 404 ")
                             (strip EmptyString)))))
      ∧ MigrateImages.events st'
        = MigrateImages.events st
          ++ [MigrateImages.EvMakedirs (dirname "/srv/i/x.png");
              MigrateImages.EvSubprocess
                (MigrateImages.download_command "https://old/x.png"
                   "/srv/i/x.png")].
Proof.
  cbv zeta. assert (22%Z ≠ 0%Z) as Hcode by discriminate.
  split; [reflexivity|]. split; [reflexivity|]. split; [exact Hcode|].
  exact (download_failure_raises MigrateImages.example_offline_env
           "https://old/x.png" "/srv/i/x.png"
           (MigrateImages.initial ([] : list string)) [] [] 22%Z EmptyString
           "curl: (22) 404 " eq_refl eq_refl Hcode).
Defined.

Lemma upload_failure_raises_witness :
  let st := MigrateImages.initial ([] : list string) in
  let cmd :=
    MigrateImages.upload_command "https://api/artworks/a1/images"
      (Some "access_token=t") "image" "/srv/i/x.png" "is_main_image" true in
  MigrateImages.subprocess_run MigrateImages.example_env
    (MigrateImages.world st) cmd
  = ([], Some (22%Z, EmptyString, "curl: (22) error"))
  ∧ 22%Z ≠ 0%Z
  ∧ ∃ st',
      MigrateImages.upload_image MigrateImages.example_env
        "https://api/artworks/a1/images" (Some "access_token=t") "image"
        "/srv/i/x.png" "is_main_image" true false st
      = (st', Raise (RuntimeError
                       (MsgUploadFailed 22 (basename "/srv/i/x.png")
                          (MigrateImages.or_str (strip "curl: (22) error")
                             (strip EmptyString)))))
      ∧ MigrateImages.uploaded st' = MigrateImages.uploaded st.
Proof.
  cbv zeta. assert (22%Z ≠ 0%Z) as Hcode by discriminate.
  split; [reflexivity|]. split; [exact Hcode|].
  exact (upload_failure_raises MigrateImages.example_env
           "https://api/artworks/a1/images" (Some "access_token=t") "image"
           "/srv/i/x.png" "is_main_image" true
           (MigrateImages.initial ([] : list string)) [] 22%Z EmptyString
           "curl: (22) error" eq_refl Hcode).
Defined.
